(** * RSA demo engine (app_rsa.py): a shallow embedding and its properties

    The arithmetic core of [app_rsa.py] is embedded here function by
    function: [is_prime] (Miller-Rabin), [generate_prime], [gcd],
    [mod_inverse], [generate_keypair], [encrypt] and [decrypt].

    - Python integers are [Z].
    - A Python exception is a [Raise] outcome; a loop that has not finished
      within its fuel is [OutOfFuel].
    - The module [random] is an infinite tape of raw draws, threaded through
      the code as explicit state.
    - The calls to [st.info], [st.success] and [st.error] inside the engine
      only write to the page; they return nothing to the engine and are left
      out.
    - The three pages of the script are embedded as functions of the
      session state and of the widgets' values, giving the session they
      leave and what they end up showing. *)

From Stdlib Require Import ZArith List Bool Lia Znumtheory Zcong Zmod.
Import ListNotations.
Local Open Scope Z_scope.

(** ** Outcomes of a Python computation *)

Inductive exn : Type :=
| ValueError
| ZeroDivisionError.

Inductive result (A : Type) : Type :=
| Ok (a : A)
| Raise (e : exn)
| OutOfFuel.

Arguments Ok {A} a.
Arguments Raise {A} e.
Arguments OutOfFuel {A}.

Definition rbind {A B : Type} (r : result A) (k : A -> result B) : result B :=
  match r with
  | Ok a => k a
  | Raise e => Raise e
  | OutOfFuel => OutOfFuel
  end.

Definition returns {A : Type} (r : result A) : Prop := exists a, r = Ok a.

Definition raises {A : Type} (r : result A) : Prop := exists e, r = Raise e.

(** ** Built-ins the engine relies on *)

Module Py.

(** Square-and-multiply on the binary digits of the exponent. *)
Fixpoint powmod_pos (b : Z) (e : positive) (m : Z) : Z :=
  match e with
  | xH => b mod m
  | xO e' => let r := powmod_pos b e' m in (r * r) mod m
  | xI e' => let r := powmod_pos b e' m in ((r * r) mod m * b) mod m
  end.

Definition powmod (b e m : Z) : Z :=
  match e with
  | Zpos p => powmod_pos b p m
  | _ => 1 mod m
  end.

(** [pow(b, e, m)]: [ValueError] for a zero modulus; a negative exponent asks
    for a power of the inverse of [b] modulo [m], and is a [ValueError] when
    [b] has none. The result takes the sign of [m], as [%] does. *)
Definition pow (b e m : Z) : result Z :=
  if m =? 0 then Raise ValueError
  else if e <? 0 then
    if Z.gcd b m =? 1 then Ok (powmod (Z.invmod b m) (- e) m)
    else Raise ValueError
  else Ok (powmod b e m).

(** [a // b] and [a % b] *)
Definition floordiv (a b : Z) : result Z :=
  if b =? 0 then Raise ZeroDivisionError else Ok (a / b).

Definition modulo (a b : Z) : result Z :=
  if b =? 0 then Raise ZeroDivisionError else Ok (a mod b).

(** [a << k] *)
Definition shl (a k : Z) : result Z :=
  if k <? 0 then Raise ValueError else Ok (Z.shiftl a k).

(** A symbol of a [str] is a code point. *)
Record symbol : Type := Sym { code : Z }.

Definition max_code : Z := 1114112. (* 0x110000 *)

Definition wf_symbol (c : symbol) : Prop := 0 <= code c < max_code.

Definition ord (c : symbol) : Z := code c.

(** [chr(i)]: [ValueError] outside [range(0x110000)]. *)
Definition chr (i : Z) : result symbol :=
  if (0 <=? i) && (i <? max_code) then Ok (Sym i) else Raise ValueError.

Definition str : Type := list symbol.

Definition wf_str (s : str) : Prop := Forall wf_symbol s.

End Py.

(** ** The random source

    A tape of raw draws. [randint] and [getrandbits] reduce the next raw draw
    into the requested range, so that every value of the range is the image
    of some tape and every tape yields a value of the range. *)

Definition tape : Type := nat -> Z.

Definition M (A : Type) : Type := tape -> result (A * tape).

Definition ret {A : Type} (a : A) : M A := fun t => Ok (a, t).

Definition bind {A B : Type} (m : M A) (k : A -> M B) : M B :=
  fun t =>
    match m t with
    | Ok (a, t') => k a t'
    | Raise e => Raise e
    | OutOfFuel => OutOfFuel
    end.

Definition lift {A : Type} (r : result A) : M A :=
  fun t =>
    match r with
    | Ok a => Ok (a, t)
    | Raise e => Raise e
    | OutOfFuel => OutOfFuel
    end.

Definition out_of_fuel {A : Type} : M A := fun _ => OutOfFuel.

Declare Scope rng_scope.
Delimit Scope rng_scope with rng.
Notation "x <- m ;; k" := (bind m (fun x => k))
  (at level 61, m at next level, right associativity) : rng_scope.
Local Open Scope rng_scope.

(** The value a computation returns, without the tape that is left. *)
Definition value {A : Type} (r : result (A * tape)) : result A :=
  match r with
  | Ok (a, _) => Ok a
  | Raise e => Raise e
  | OutOfFuel => OutOfFuel
  end.

Definition next (t : tape) : Z * tape := (t O, fun i => t (S i)).

(** [random.randint(lo, hi)]: [ValueError] on an empty range. *)
Definition randint (lo hi : Z) : M Z :=
  fun t =>
    if hi <? lo then Raise ValueError
    else let (r, t') := next t in Ok (lo + r mod (hi - lo + 1), t').

(** [random.getrandbits(k)] *)
Definition getrandbits (k : Z) : M Z :=
  fun t =>
    if k <? 0 then Raise ValueError
    else let (r, t') := next t in Ok (r mod 2 ^ k, t').

(** A tape for the examples. *)
Definition sample_tape : tape := fun i => 7919 * Z.of_nat i + 13.

(** ** is_prime *)

(** [while d % 2 == 0: s += 1; d //= 2] *)
Fixpoint factor_twos (fuel : nat) (s d : Z) : result (Z * Z) :=
  match fuel with
  | O => OutOfFuel
  | S fuel' =>
      if d mod 2 =? 0 then factor_twos fuel' (s + 1) (d / 2) else Ok (s, d)
  end.

(** The halving loop stops after at most as many steps as [d] has bits. *)
Definition bit_fuel (d : Z) : nat := S (Z.to_nat (Z.log2 (Z.abs d))).

(** [for _ in range(cnt): x = pow(x, 2, n); if x == n - 1: break] with its
    [else] branch: [true] when the loop was left by [break], [false] when the
    range ran out. *)
Fixpoint squarings (cnt : nat) (x n : Z) : result bool :=
  match cnt with
  | O => Ok false
  | S cnt' =>
      rbind (Py.pow x 2 n) (fun x' =>
        if x' =? n - 1 then Ok true else squarings cnt' x' n)
  end.

(** One round of the test for the witness [a]: [true] when the round passes
    ([continue] or [break]), [false] when it reports a composite. *)
Definition witness_round (n s d a : Z) : result bool :=
  rbind (Py.pow a d n) (fun x =>
    if (x =? 1) || (x =? n - 1) then Ok true
    else squarings (Z.to_nat (s - 1)) x n).

(** [for _ in range(k): ...] *)
Fixpoint witness_loop (k : nat) (n s d : Z) : M bool :=
  match k with
  | O => ret true
  | S k' =>
      a <- randint 2 (n - 2) ;;
      pass <- lift (witness_round n s d a) ;;
      if pass then witness_loop k' n s d else ret false
  end.

Definition is_prime (n k : Z) : M bool :=
  if (n <=? 1) || (n =? 4) then ret false
  else if n <=? 3 then ret true
  else if n mod 2 =? 0 then ret false
  else
    sd <- lift (factor_twos (bit_fuel (n - 1)) 0 (n - 1)) ;;
    witness_loop (Z.to_nat k) n (fst sd) (snd sd).

Definition default_rounds : Z := 5.

(** ** generate_prime *)

Fixpoint generate_prime (fuel : nat) (bits : Z) : M Z :=
  match fuel with
  | O => out_of_fuel
  | S fuel' =>
      r <- getrandbits bits ;;
      top <- lift (Py.shl 1 (bits - 1)) ;;
      let p := Z.lor r (Z.lor top 1) in
      ok <- is_prime p default_rounds ;;
      if ok then ret p else generate_prime fuel' bits
  end.

(** ** gcd *)

(** [while b: a, b = b, a % b] *)
Fixpoint gcd_loop (fuel : nat) (a b : Z) : result Z :=
  if b =? 0 then Ok a
  else
    match fuel with
    | O => OutOfFuel
    | S fuel' => gcd_loop fuel' b (a mod b)
    end.

(** Two steps of the loop at least halve [b]. *)
Definition euclid_fuel (b : Z) : nat := S (2 * bit_fuel b).

Definition gcd (a b : Z) : result Z := gcd_loop (euclid_fuel b) a b.

(** ** mod_inverse *)

(** [while a > 1: q = a // m; t = m; m = a % m; a = t; t = y;
    y = x - q * y; x = t] *)
Fixpoint mod_inverse_loop (fuel : nat) (a m x y : Z) : result Z :=
  if 1 <? a then
    match fuel with
    | O => OutOfFuel
    | S fuel' =>
        rbind (Py.floordiv a m) (fun q =>
        rbind (Py.modulo a m) (fun r =>
          mod_inverse_loop fuel' m r y (x - q * y)))
    end
  else Ok x.

Definition mod_inverse (a m : Z) : result Z :=
  let m0 := m in
  if m =? 1 then Ok 0
  else
    rbind (mod_inverse_loop (euclid_fuel m) a m 1 0) (fun x =>
      if x <? 0 then Ok (x + m0) else Ok x).

(** ** generate_keypair *)

Definition public_key : Type := (Z * Z)%type.
Definition private_key : Type := (Z * Z)%type.

(** [while p == q: q = generate_prime(bits // 2)] *)
Fixpoint distinct_q (fuel : nat) (half p q : Z) : M Z :=
  if p =? q then
    match fuel with
    | O => out_of_fuel
    | S fuel' => q' <- generate_prime (S fuel') half ;; distinct_q fuel' half p q'
    end
  else ret q.

(** [while gcd(e, phi) != 1: e = random.randint(2, phi - 1)] *)
Fixpoint coprime_e (fuel : nat) (e phi : Z) : M Z :=
  g <- lift (gcd e phi) ;;
  if g =? 1 then ret e
  else
    match fuel with
    | O => out_of_fuel
    | S fuel' => e' <- randint 2 (phi - 1) ;; coprime_e fuel' e' phi
    end.

(** Lines 84-88: the two primes. *)
Definition generate_primes (fuel : nat) (bits : Z) : M (Z * Z) :=
  p <- generate_prime fuel (bits / 2) ;;
  q <- generate_prime fuel (bits / 2) ;;
  q <- distinct_q fuel (bits / 2) p q ;;
  ret (p, q).

(** Lines 90-109: the keys from the two primes. *)
Definition keys_of_primes (fuel : nat) (p q : Z) : M (public_key * private_key) :=
  let n := p * q in
  let phi := (p - 1) * (q - 1) in
  e <- randint 2 (phi - 1) ;;
  e <- coprime_e fuel e phi ;;
  d <- lift (mod_inverse e phi) ;;
  ret ((n, e), (n, d)).

Definition generate_keypair (fuel : nat) (bits : Z) : M (public_key * private_key) :=
  pq <- generate_primes fuel bits ;;
  keys_of_primes fuel (fst pq) (snd pq).

(** ** encrypt and decrypt *)

(** The [for] loop of [encrypt], with the list built so far; [return []]
    on a symbol that does not fit below [n] drops that list. *)
Fixpoint encrypt_loop (n e : Z) (plaintext : Py.str) (encrypted_msg_chars : list Z)
  : result (list Z) :=
  match plaintext with
  | [] => Ok encrypted_msg_chars
  | char :: rest =>
      let char_as_int := Py.ord char in
      if n <=? char_as_int then Ok []
      else
        rbind (Py.pow char_as_int e n) (fun encrypted_char =>
          encrypt_loop n e rest (encrypted_msg_chars ++ [encrypted_char]))
  end.

Definition encrypt (pk : public_key) (plaintext : Py.str) : result (list Z) :=
  let (n, e) := pk in encrypt_loop n e plaintext [].

Fixpoint decrypt_loop (n d : Z) (ciphertext : list Z) (decrypted_chars : Py.str)
  : result Py.str :=
  match ciphertext with
  | [] => Ok decrypted_chars
  | char_code :: rest =>
      rbind (Py.pow char_code d n) (fun decrypted_char_int =>
      rbind (Py.chr decrypted_char_int) (fun c =>
        decrypt_loop n d rest (decrypted_chars ++ [c])))
  end.

Definition decrypt (sk : private_key) (ciphertext : list Z) : result Py.str :=
  let (n, d) := sk in decrypt_loop n d ciphertext [].

(** ** The caller of encrypt (lines 217-225)

    [if encrypted_data:] tests the list for emptiness. *)
Inductive page : Type :=
| EncryptedShown (encrypted_msg : list Z)
| EncryptionFailedShown.

Definition encrypt_button (pk : public_key) (message : Py.str) : result page :=
  rbind (encrypt pk message) (fun encrypted_data =>
    match encrypted_data with
    | [] => Ok EncryptionFailedShown
    | _ :: _ => Ok (EncryptedShown encrypted_data)
    end).

(** ** The pages of the application (lines 159-268)

    One run of the script shows one page. The widgets are the inputs of the
    run: whether the button was pressed, the slider's value, the text of the
    text area. A run gives the session state it leaves and what it shows; an
    exception ends the run and keeps what the session held at that point. *)

Module St.

Definition key : Type := (Z * Z)%type.

Record session_state : Type := Build {
  public_key : option key;
  private_key : option key;
  encrypted_msg : list Z;
  original_msg : Py.str;
  decrypted_msg : Py.str
}.

(** Lines 160-169 *)
Definition initial : session_state :=
  {| public_key := None; private_key := None; encrypted_msg := [];
     original_msg := []; decrypted_msg := [] |}.

Definition set_keys (public private : key) (s : session_state) : session_state :=
  {| public_key := Some public; private_key := Some private;
     encrypted_msg := encrypted_msg s; original_msg := original_msg s;
     decrypted_msg := decrypted_msg s |}.

Definition set_original_msg (m : Py.str) (s : session_state) : session_state :=
  {| public_key := public_key s; private_key := private_key s;
     encrypted_msg := encrypted_msg s; original_msg := m;
     decrypted_msg := decrypted_msg s |}.

Definition set_encrypted_msg (c : list Z) (s : session_state) : session_state :=
  {| public_key := public_key s; private_key := private_key s;
     encrypted_msg := c; original_msg := original_msg s;
     decrypted_msg := decrypted_msg s |}.

Definition set_decrypted_msg (m : Py.str) (s : session_state) : session_state :=
  {| public_key := public_key s; private_key := private_key s;
     encrypted_msg := encrypted_msg s; original_msg := original_msg s;
     decrypted_msg := m |}.

End St.

(** [==] on strings *)
Fixpoint str_eqb (a b : Py.str) : bool :=
  match a, b with
  | [], [] => true
  | x :: a', y :: b' => (Py.code x =? Py.code y) && str_eqb a' b'
  | _, _ => false
  end.

(** What a run ends up showing. *)
Inductive screen : Type :=
| Idle
| KeysShown (public private : St.key)
| GenerateKeysFirst
| GenerateKeysFirstUnderButton
| NoMessageUnderButton
| Encryption (p : page)
| Missing (no_key no_msg : bool)
| Verified (decrypted_msg : Py.str)
| Mismatch (original_msg decrypted_msg : Py.str).

(** Lines 175-195 *)
Definition key_generation_page (clicked : bool) (key_bits : Z) (fuel : nat) (t : tape)
           (s : St.session_state) : St.session_state * result screen :=
  if clicked then
    match value (generate_keypair fuel key_bits t) with
    | Ok (public, private) =>
        (St.set_keys public private s, Ok (KeysShown public private))
    | Raise e => (s, Raise e)
    | OutOfFuel => (s, OutOfFuel)
    end
  else (s, Ok Idle).

(** Lines 198-227 *)
Definition encryption_page (message_to_encrypt : Py.str) (clicked : bool)
           (s : St.session_state) : St.session_state * result screen :=
  match St.public_key s with
  | Some _ =>
      let s := St.set_original_msg message_to_encrypt s in
      if clicked then
        match St.public_key s with
        | None => (s, Ok GenerateKeysFirstUnderButton)
        | Some pk =>
            match encrypt_button pk message_to_encrypt with
            | Ok (EncryptedShown encrypted_data) =>
                (St.set_encrypted_msg encrypted_data s,
                 Ok (Encryption (EncryptedShown encrypted_data)))
            | Ok EncryptionFailedShown => (s, Ok (Encryption EncryptionFailedShown))
            | Raise e => (s, Raise e)
            | OutOfFuel => (s, OutOfFuel)
            end
        end
      else (s, Ok Idle)
  | None => (s, Ok GenerateKeysFirst)
  end.

(** Lines 231-268 *)
Definition decryption_page (clicked : bool) (s : St.session_state)
  : St.session_state * result screen :=
  match St.private_key s, St.encrypted_msg s with
  | Some _, _ :: _ =>
      if clicked then
        match St.private_key s with
        | None => (s, Ok GenerateKeysFirstUnderButton)
        | Some sk =>
            match St.encrypted_msg s with
            | [] => (s, Ok NoMessageUnderButton)
            | _ :: _ =>
                match decrypt sk (St.encrypted_msg s) with
                | Ok decrypted_message =>
                    let s := St.set_decrypted_msg decrypted_message s in
                    (s, Ok (if str_eqb (St.original_msg s) (St.decrypted_msg s)
                            then Verified (St.decrypted_msg s)
                            else Mismatch (St.original_msg s) (St.decrypted_msg s)))
                | Raise e => (s, Raise e)
                | OutOfFuel => (s, OutOfFuel)
                end
            end
        end
      else (s, Ok Idle)
  | None, [] => (s, Ok (Missing true true))
  | None, _ :: _ => (s, Ok (Missing true false))
  | Some _, [] => (s, Ok (Missing false true))
  end.

(** One run of the script: the page chosen in the sidebar and its widgets. *)
Inductive event : Type :=
| KeyGeneration (clicked : bool) (key_bits : Z) (fuel : nat) (t : tape)
| EncryptionOf (message_to_encrypt : Py.str) (clicked : bool)
| Decryption (clicked : bool).

Definition run (s : St.session_state) (ev : event) : St.session_state * result screen :=
  match ev with
  | KeyGeneration clicked key_bits fuel t => key_generation_page clicked key_bits fuel t s
  | EncryptionOf message clicked => encryption_page message clicked s
  | Decryption clicked => decryption_page clicked s
  end.

(** The session after a sequence of runs, from a fresh one. *)
Definition session_after (events : list event) : St.session_state :=
  fold_left (fun s ev => fst (run s ev)) events St.initial.

(** A session for the examples: the keys of p = 61, q = 53, e = 17, and the
    ciphertext of the one-symbol message of code 65. *)
Definition sample_session : St.session_state :=
  St.Build (Some (3233, 17)) (Some (3233, 2753)) [2790] [Py.Sym 65] [].

(** What the pages keep true of the session. *)
Definition session_ok (s : St.session_state) : Prop :=
  (St.public_key s = None <-> St.private_key s = None) /\
  (forall pk sk,
      St.public_key s = Some pk -> St.private_key s = Some sk -> fst pk = fst sk) /\
  (St.encrypted_msg s <> [] -> St.public_key s <> None) /\
  (St.decrypted_msg s <> [] -> St.encrypted_msg s <> []) /\
  Py.wf_str (St.decrypted_msg s).

(** ** Checks used in the proofs *)

(** [p] is odd and has exactly [bits] bits. *)
Definition has_bits (bits p : Z) : Prop :=
  2 ^ (bits - 1) <= p < 2 ^ bits /\ Z.odd p = true.

(** The witnesses [randint(2, n - 2)] can draw. *)
Definition witnesses (n : Z) : list Z :=
  map (fun i => 2 + Z.of_nat i) (seq 0 (Z.to_nat (n - 3))).

(** Every witness gives the round the verdict [v]. *)
Definition all_rounds (n s d : Z) (v : bool) : bool :=
  forallb (fun a =>
    match witness_round n s d a with
    | Ok b => Bool.eqb b v
    | _ => false
    end) (witnesses n).

(** No number of [[2, p - 1]] divides [p]. *)
Definition trial_division (p : Z) : bool :=
  forallb (fun n => negb (p mod n =? 0)) (witnesses (p + 1)).

(** What the loop of [mod_inverse(a0, m0)] keeps true of [(a, m, x, y)]:
    [x] and [y] are the coefficients of [a0] in [a] and [m] modulo [m0],
    they have opposite signs, and [a * |y| + m * |x| = m0]. *)
Definition bezout_inv (a0 m0 a m x y : Z) : Prop :=
  1 <= a /\ 0 <= m /\ Z.gcd a m = 1 /\
  ((0 <= x /\ y <= 0 /\ m * x - a * y = m0) \/
   (x <= 0 /\ 0 <= y /\ a * y - m * x = m0)) /\
  - m0 < x < m0 /\
  (m0 | x * a0 - a) /\ (m0 | y * a0 - m).

(** The precondition of [encrypt] fails for the symbol [c]. *)
Definition too_large (n : Z) (c : Py.symbol) : Prop := n <= Py.ord c.

(** The domain of [chr]. *)
Definition is_code_point (i : Z) : bool := (0 <=? i) && (i <? Py.max_code).

(** * Properties *)

(** ** Modular exponentiation *)

Lemma powmod_pos_spec (b : Z) (e : positive) (m : Z) :
  Py.powmod_pos b e m = b ^ Zpos e mod m.
Proof.
  induction e as [e IH | e IH | ]; cbn [Py.powmod_pos].
  - rewrite IH, Pos2Z.inj_xI.
    replace (2 * Z.pos e + 1) with (Z.pos e + Z.pos e + 1) by lia.
    rewrite !Z.pow_add_r, Z.pow_1_r by lia.
    rewrite <- Zmult_mod.
    rewrite Zmult_mod_idemp_l. reflexivity.
  - rewrite IH, Pos2Z.inj_xO.
    replace (2 * Z.pos e) with (Z.pos e + Z.pos e) by lia.
    rewrite Z.pow_add_r by lia.
    rewrite <- Zmult_mod. reflexivity.
  - rewrite Z.pow_1_r. reflexivity.
Qed.

Lemma powmod_spec (b e m : Z) : 0 <= e -> Py.powmod b e m = b ^ e mod m.
Proof.
  intros He. destruct e as [ | p | p ]; cbn [Py.powmod].
  - reflexivity.
  - apply powmod_pos_spec.
  - lia.
Qed.

Lemma pow_nonneg (b e m : Z) :
  m <> 0 -> 0 <= e -> Py.pow b e m = Ok (b ^ e mod m).
Proof.
  intros Hm He. unfold Py.pow.
  destruct (Z.eqb_spec m 0) as [ | _ ]; [ contradiction | ].
  destruct (Z.ltb_spec e 0) as [ | _ ]; [ lia | ].
  now rewrite powmod_spec.
Qed.

Lemma pow_range (b e m x : Z) : 0 < m -> Py.pow b e m = Ok x -> 0 <= x < m.
Proof.
  intros Hm. unfold Py.pow.
  destruct (Z.eqb_spec m 0); [ lia | ].
  assert (R : forall c k, 0 <= k -> 0 <= Py.powmod c k m < m).
  { intros c k Hk. rewrite powmod_spec by assumption. apply Z.mod_pos_bound, Hm. }
  destruct (Z.ltb_spec e 0).
  - destruct (Z.gcd b m =? 1); [ | discriminate ].
    intros [= <-]. apply R. lia.
  - intros [= <-]. apply R. lia.
Qed.

(** ** The monad of the random source *)

Lemma bind_Ok {A B : Type} (m : M A) (k : A -> M B) (t : tape) (b : B) (t' : tape) :
  bind m k t = Ok (b, t') ->
  exists a t1, m t = Ok (a, t1) /\ k a t1 = Ok (b, t').
Proof.
  unfold bind. destruct (m t) as [ [a t1] | | ]; try discriminate.
  intros H. now exists a, t1.
Qed.

Lemma lift_Ok {A : Type} (r : result A) (t : tape) (a : A) (t' : tape) :
  lift r t = Ok (a, t') -> r = Ok a /\ t' = t.
Proof.
  unfold lift. destruct r; try discriminate. now intros [= -> ->].
Qed.

Lemma ret_Ok {A : Type} (a b : A) (t t' : tape) :
  ret a t = Ok (b, t') -> b = a /\ t' = t.
Proof. unfold ret. now intros [= -> ->]. Qed.

Lemma randint_Ok (lo hi : Z) (t : tape) (v : Z) (t' : tape) :
  randint lo hi t = Ok (v, t') -> lo <= v <= hi.
Proof.
  unfold randint. destruct (Z.ltb_spec hi lo); [ discriminate | ].
  cbn. intros [= <- _].
  pose proof (Z.mod_pos_bound (t O) (hi - lo + 1)). lia.
Qed.

Lemma randint_returns (lo hi : Z) (t : tape) :
  lo <= hi ->
  randint lo hi t = Ok (lo + t O mod (hi - lo + 1), fun i => t (S i)).
Proof.
  intros H. unfold randint. destruct (Z.ltb_spec hi lo); [ lia | reflexivity ].
Qed.

(** Every value of the range is drawn from some tape. *)
Lemma randint_onto (lo hi v : Z) (t : tape) :
  lo <= v <= hi -> t O = v - lo -> value (randint lo hi t) = Ok v.
Proof.
  intros H E. rewrite randint_returns by lia. cbn. rewrite E.
  rewrite Z.mod_small by lia. f_equal. lia.
Qed.

Lemma getrandbits_Ok (k : Z) (t : tape) (v : Z) (t' : tape) :
  getrandbits k t = Ok (v, t') -> 0 <= k /\ 0 <= v < 2 ^ k.
Proof.
  unfold getrandbits. destruct (Z.ltb_spec k 0); [ discriminate | ].
  cbn. intros [= <- _]. split; [ assumption | ].
  apply Z.mod_pos_bound. apply Z.pow_pos_nonneg; lia.
Qed.

(** ** is_prime *)

Lemma factor_twos_returns (fuel : nat) (s d : Z) :
  0 < d < 2 ^ Z.of_nat fuel -> returns (factor_twos fuel s d).
Proof.
  revert s d. induction fuel as [ | fuel IH ]; intros s d Hd.
  - cbn in Hd. lia.
  - cbn [factor_twos]. destruct (Z.eqb_spec (d mod 2) 0) as [E | _].
    + apply IH.
      rewrite Nat2Z.inj_succ, Z.pow_succ_r in Hd by lia.
      pose proof (Z.div_mod d 2 ltac:(lia)). lia.
    + now exists (s, d).
Qed.

Lemma bit_fuel_enough (d : Z) : 0 < d -> 0 < d < 2 ^ Z.of_nat (bit_fuel d).
Proof.
  intros Hd. split; [ assumption | ].
  unfold bit_fuel. rewrite Z.abs_eq by lia.
  rewrite Nat2Z.inj_succ, Z2Nat.id by apply Z.log2_nonneg.
  apply Z.log2_spec, Hd.
Qed.

(** Past its three guards, [is_prime] is the decomposition of [n - 1]
    followed by the rounds. *)
Lemma is_prime_odd (n k : Z) :
  5 <= n -> n mod 2 = 1 ->
  is_prime n k =
  (sd <- lift (factor_twos (bit_fuel (n - 1)) 0 (n - 1)) ;;
   witness_loop (Z.to_nat k) n (fst sd) (snd sd)).
Proof.
  intros Hn Hodd. unfold is_prime.
  destruct (Z.leb_spec n 1); [ lia | ].
  destruct (Z.eqb_spec n 4); [ lia | ].
  destruct (Z.leb_spec n 3); [ lia | ].
  rewrite Hodd. reflexivity.
Qed.

Lemma is_prime_even (n k : Z) (t : tape) :
  n mod 2 = 0 -> n <> 2 -> is_prime n k t = Ok (false, t).
Proof.
  intros Heven Hn. unfold is_prime.
  destruct (Z.leb_spec n 1); [ reflexivity | ].
  destruct (Z.eqb_spec n 4); [ reflexivity | ].
  destruct (Z.leb_spec n 3).
  - assert (n = 3) as -> by lia. discriminate.
  - rewrite Heven. reflexivity.
Qed.

Lemma witnesses_complete (n a : Z) : 2 <= a <= n - 2 -> In a (witnesses n).
Proof.
  intros H. unfold witnesses. apply in_map_iff.
  exists (Z.to_nat (a - 2)). split; [ lia | ].
  apply in_seq. lia.
Qed.

Lemma all_rounds_spec (n s d : Z) (v : bool) :
  all_rounds n s d v = true ->
  forall a, 2 <= a <= n - 2 -> witness_round n s d a = Ok v.
Proof.
  unfold all_rounds. rewrite forallb_forall. intros H a Ha.
  specialize (H a (witnesses_complete n a Ha)).
  destruct (witness_round n s d a) as [ b | | ]; try discriminate.
  apply Bool.eqb_prop in H. now subst.
Qed.

Lemma witness_loop_all_pass (n s d : Z) :
  (forall a, 2 <= a <= n - 2 -> witness_round n s d a = Ok true) ->
  forall (k : nat) (t : tape),
    4 <= n -> value (witness_loop k n s d t) = Ok true.
Proof.
  intros Hall k. induction k as [ | k IH ]; intros t Hn.
  - reflexivity.
  - cbn [witness_loop]. unfold bind at 1.
    rewrite randint_returns by lia.
    unfold bind at 1, lift.
    rewrite Hall by (pose proof (Z.mod_pos_bound (t O) (n - 2 - 2 + 1)); lia).
    apply IH, Hn.
Qed.

Lemma witness_loop_all_fail (n s d : Z) :
  (forall a, 2 <= a <= n - 2 -> witness_round n s d a = Ok false) ->
  forall (k : nat) (t : tape),
    4 <= n -> k <> O -> value (witness_loop k n s d t) = Ok false.
Proof.
  intros Hall [ | k ] t Hn Hk; [ contradiction | ].
  cbn [witness_loop]. unfold bind at 1.
  rewrite randint_returns by lia.
  unfold bind at 1, lift.
  rewrite Hall by (pose proof (Z.mod_pos_bound (t O) (n - 2 - 2 + 1)); lia).
  reflexivity.
Qed.

Lemma is_prime_verdict (n k s d : Z) (v : bool) :
  5 <= n -> n mod 2 = 1 -> 0 < k ->
  factor_twos (bit_fuel (n - 1)) 0 (n - 1) = Ok (s, d) ->
  all_rounds n s d v = true ->
  forall t, value (is_prime n k t) = Ok v.
Proof.
  intros Hn Hodd Hk Hsd Hall t.
  rewrite is_prime_odd by assumption.
  unfold bind, lift. rewrite Hsd. cbn [fst snd].
  pose proof (all_rounds_spec _ _ _ _ Hall) as Hround.
  destruct v.
  - apply witness_loop_all_pass; [ assumption | lia ].
  - apply witness_loop_all_fail; [ assumption | lia | lia ].
Qed.

(** C5: with the default five rounds and whatever witnesses are drawn,
    [is_prime] answers [True] for 2, 3, 5, 7, 11, 97 and 7919, and [False]
    for 4, 9, 100, 7920, 1 and 0. *)
Theorem is_prime_small_cases (t : tape) :
  Forall (fun n => value (is_prime n default_rounds t) = Ok true)
         [2; 3; 5; 7; 11; 97; 7919] /\
  Forall (fun n => value (is_prime n default_rounds t) = Ok false)
         [4; 9; 100; 7920; 1; 0].
Proof.
  split; repeat constructor;
    try (eapply is_prime_verdict;
         [ lia | reflexivity | reflexivity | vm_compute; reflexivity
         | vm_compute; reflexivity ]).
Qed.

(** C10: with [k = 0] the loop over the rounds has no iteration, and every
    odd [n >= 5], prime or not, is reported as probably prime. *)
Theorem is_prime_zero_rounds (n : Z) (t : tape) :
  5 <= n -> Z.odd n = true -> is_prime n 0 t = Ok (true, t).
Proof.
  intros Hn Hodd.
  rewrite is_prime_odd by (rewrite ?Zmod_odd, ?Hodd; trivial).
  destruct (factor_twos_returns (bit_fuel (n - 1)) 0 (n - 1)) as [[s d] E].
  { apply bit_fuel_enough. lia. }
  unfold bind, lift. rewrite E. reflexivity.
Qed.

Lemma is_prime_zero_rounds_witness :
  (5 <= 9 /\ Z.odd 9 = true) /\ is_prime 9 0 (fun _ => 0) = Ok (true, fun _ => 0).
Proof.
  split; [ split; [ lia | reflexivity ] | ].
  apply (is_prime_zero_rounds 9 (fun _ => 0)); [ lia | reflexivity ].
Defined.

(** ** gcd *)

Lemma gcd_loop_sound (fuel : nat) :
  forall a b r, 0 <= a -> 0 <= b -> gcd_loop fuel a b = Ok r -> r = Z.gcd a b.
Proof.
  induction fuel as [ | fuel IH ]; intros a b r Ha Hb; cbn [gcd_loop];
    destruct (Z.eqb_spec b 0) as [-> | Hb0 ];
    try (intros [= <-]; now rewrite Z.gcd_0_r_nonneg);
    try discriminate.
  intros H. apply IH in H.
  - rewrite H, Z.gcd_comm. apply Z.gcd_mod_l.
  - assumption.
  - apply Z.mod_pos_bound. lia.
Qed.

(** Two steps take [b] to [b mod (a mod b)], less than half of [b]. *)
Lemma two_steps_halve (a b k : Z) :
  0 < b < 2 * k -> a mod b <> 0 -> 0 <= b mod (a mod b) < k.
Proof.
  intros Hb Hr.
  pose proof (Z.mod_pos_bound a b ltac:(lia)) as Ha.
  pose proof (Z.mod_pos_bound b (a mod b) ltac:(lia)) as Hs.
  pose proof (Z.div_mod b (a mod b) Hr) as E.
  assert (1 <= b / (a mod b)) by (apply Z.div_le_lower_bound; lia).
  nia.
Qed.

Lemma gcd_loop_returns (k : nat) :
  forall a b fuel,
    0 <= b < 2 ^ Z.of_nat k -> (2 * k <= fuel)%nat -> returns (gcd_loop fuel a b).
Proof.
  induction k as [ | k IH ]; intros a b fuel Hb Hfuel.
  - assert (b = 0) as -> by (cbn in Hb; lia).
    destruct fuel; now exists a.
  - destruct fuel as [ | [ | fuel ] ]; try lia.
    cbn [gcd_loop].
    destruct (Z.eqb_spec b 0) as [ | Hb0 ]; [ now exists a | ].
    destruct (Z.eqb_spec (a mod b) 0) as [ | Hr0 ]; [ now exists b | ].
    apply IH; [ | lia ].
    apply two_steps_halve; [ | assumption ].
    rewrite Nat2Z.inj_succ, Z.pow_succ_r in Hb by lia. lia.
Qed.

Lemma euclid_fuel_enough (b : Z) :
  0 <= b ->
  0 <= b < 2 ^ Z.of_nat (bit_fuel b) /\ (2 * bit_fuel b < euclid_fuel b)%nat.
Proof.
  intros Hb. split; [ | unfold euclid_fuel; lia ].
  destruct (Z.eq_dec b 0) as [-> | ].
  - cbn. lia.
  - pose proof (bit_fuel_enough b). lia.
Qed.

(** On non-negative arguments the loop ends, with the greatest common
    divisor. *)
Lemma gcd_spec (a b : Z) : 0 <= a -> 0 <= b -> gcd a b = Ok (Z.gcd a b).
Proof.
  intros Ha Hb. unfold gcd.
  destruct (euclid_fuel_enough b Hb) as [Hk Hfuel].
  destruct (gcd_loop_returns (bit_fuel b) a b (euclid_fuel b) Hk ltac:(lia))
    as [r E].
  rewrite E. f_equal. eapply gcd_loop_sound; eassumption.
Qed.

(** ** mod_inverse *)

Lemma mod_inverse_loop_finishes (k : nat) :
  forall a m x y fuel,
    0 <= m < 2 ^ Z.of_nat k -> (2 * k < fuel)%nat ->
    mod_inverse_loop fuel a m x y <> OutOfFuel.
Proof.
  induction k as [ | k IH ]; intros a m x y fuel Hm Hfuel.
  - assert (m = 0) as -> by (cbn in Hm; lia).
    destruct fuel as [ | fuel ]; [ lia | ].
    cbn. destruct (1 <? a); discriminate.
  - destruct fuel as [ | [ | fuel ] ]; try lia.
    cbn [mod_inverse_loop]. unfold Py.floordiv, Py.modulo.
    destruct (1 <? a); [ | discriminate ].
    destruct (Z.eqb_spec m 0) as [ | Hm0 ]; [ discriminate | ].
    cbn [rbind].
    destruct (1 <? m); [ | discriminate ].
    destruct (Z.eqb_spec (a mod m) 0) as [ | Hr0 ]; [ discriminate | ].
    cbn [rbind].
    apply IH; [ | lia ].
    apply two_steps_halve; [ | assumption ].
    rewrite Nat2Z.inj_succ, Z.pow_succ_r in Hm by lia. lia.
Qed.

Section ModInverse.

Variables a0 m0 : Z.
Hypothesis m0_pos : 1 < m0.

Lemma bezout_inv_init : 1 <= a0 -> Z.gcd a0 m0 = 1 -> bezout_inv a0 m0 a0 m0 1 0.
Proof.
  intros Ha Hg. unfold bezout_inv. repeat split; try lia; try assumption.
  - exists 0. lia.
  - exists (-1). lia.
Qed.

Lemma bezout_inv_step (a m x y : Z) :
  bezout_inv a0 m0 a m x y -> 1 < a ->
  m <> 0 /\ bezout_inv a0 m0 m (a mod m) y (x - a / m * y).
Proof.
  intros (Ha & Hm & Hg & Hdet & Hx & Dx & Dy) Ha1.
  assert (Hm0 : m <> 0).
  { intros ->. rewrite Z.gcd_0_r_nonneg in Hg by lia. lia. }
  split; [ assumption | ].
  pose proof (Z.mod_pos_bound a m ltac:(lia)) as Hr.
  pose proof (Z.div_mod a m Hm0) as E.
  assert (Hq : 0 <= a / m) by (apply Z.div_pos; lia).
  unfold bezout_inv. repeat split; try lia; try assumption.
  - rewrite Z.gcd_comm, Z.gcd_mod_l. assumption.
  - destruct Hdet as [(Hx0 & Hy0 & D) | (Hx0 & Hy0 & D)]; nia.
  - destruct Hdet as [(Hx0 & Hy0 & D) | (Hx0 & Hy0 & D)]; nia.
  - replace ((x - a / m * y) * a0 - a mod m)
      with ((x * a0 - a) - a / m * (y * a0 - m)) by nia.
    apply Z.divide_sub_r; [ assumption | ].
    apply Z.divide_mul_r. assumption.
Qed.

(** Under the invariant the loop never divides by zero, and what it
    returns is an inverse of [a0] strictly between [- m0] and [m0]. *)
Lemma mod_inverse_loop_sound (fuel : nat) :
  forall a m x y,
    bezout_inv a0 m0 a m x y ->
    match mod_inverse_loop fuel a m x y with
    | Ok r => - m0 < r < m0 /\ (m0 | r * a0 - 1)
    | Raise _ => False
    | OutOfFuel => True
    end.
Proof.
  induction fuel as [ | fuel IH ]; intros a m x y Hinv; cbn [mod_inverse_loop];
    destruct (Z.ltb_spec 1 a) as [Ha1 | Ha1];
    try exact I;
    try (destruct Hinv as (Ha & _ & _ & _ & Hx & Dx & _);
         assert (a = 1) as -> by lia; now split).
  destruct (bezout_inv_step _ _ _ _ Hinv Ha1) as [Hm0 Hstep].
  unfold Py.floordiv, Py.modulo.
  destruct (Z.eqb_spec m 0); [ contradiction | ].
  cbn [rbind]. apply IH. assumption.
Qed.

End ModInverse.

(** For [a >= 1] coprime to [m > 1], [mod_inverse] returns the inverse of
    [a] modulo [m], in [[0, m)]; a negative coefficient is normalized by
    adding [m] once. *)
Lemma mod_inverse_spec (a m : Z) :
  1 <= a -> 1 < m -> Z.gcd a m = 1 ->
  exists x, mod_inverse a m = Ok x /\ 0 <= x < m /\ (a * x) mod m = 1.
Proof.
  intros Ha Hm Hg. unfold mod_inverse.
  destruct (Z.eqb_spec m 1); [ lia | ].
  destruct (euclid_fuel_enough m ltac:(lia)) as [Hk Hfuel].
  pose proof (mod_inverse_loop_finishes (bit_fuel m) a m 1 0 (euclid_fuel m) Hk Hfuel)
    as Hfin.
  pose proof (mod_inverse_loop_sound a m Hm (euclid_fuel m) _ _ _ _
                (bezout_inv_init a m Hm Ha Hg)) as Hsound.
  destruct (mod_inverse_loop (euclid_fuel m) a m 1 0) as [ x | e | ];
    [ | contradiction | contradiction ].
  destruct Hsound as [Hx [c Hc]].
  cbn [rbind].
  assert (Hmod : forall z, z = x \/ z = x + m -> (a * z) mod m = 1).
  { intros z Hz.
    replace (a * z) with (1 + (c + (z - x) / m * a) * m).
    - rewrite Z.mod_add by lia. apply Z.mod_1_l. lia.
    - destruct Hz as [-> | ->].
      + rewrite Z.sub_diag, Z.div_0_l by lia. lia.
      + replace (x + m - x) with m by lia. rewrite Z.div_same by lia. lia. }
  destruct (Z.ltb_spec x 0).
  + exists (x + m). repeat split; try lia. apply Hmod. now right.
  + exists x. repeat split; try lia. apply Hmod. now left.
Qed.

(** ** generate_prime *)

(** What the draw and the two forced bits give: [bits] significant bits,
    the lowest one set. *)
Lemma forced_bits (bits r : Z) :
  1 <= bits -> 0 <= r < 2 ^ bits ->
  let p := Z.lor r (Z.lor (Z.shiftl 1 (bits - 1)) 1) in
  2 ^ (bits - 1) <= p < 2 ^ bits /\
  Z.testbit p (bits - 1) = true /\ Z.testbit p 0 = true.
Proof.
  intros Hbits Hr p.
  assert (Htop : 0 < 2 ^ (bits - 1)) by (apply Z.pow_pos_nonneg; lia).
  assert (Hbit : Z.testbit p (bits - 1) = true).
  { unfold p. rewrite !Z.lor_spec, Z.shiftl_1_l, Z.pow2_bits_true by lia.
    now rewrite orb_true_r. }
  assert (Hodd : Z.testbit p 0 = true).
  { unfold p. rewrite !Z.lor_spec. cbn. now rewrite !orb_true_r. }
  assert (Hp : 0 <= p).
  { unfold p. rewrite Z.shiftl_1_l. rewrite !Z.lor_nonneg. lia. }
  assert (Hlog : Z.log2 p = bits - 1).
  { unfold p. rewrite Z.shiftl_1_l.
    rewrite Z.log2_lor by (rewrite ?Z.lor_nonneg; lia).
    rewrite Z.log2_lor, Z.log2_pow2 by lia.
    assert (Z.log2 r <= bits - 1).
    { destruct (Z.eq_dec r 0) as [-> | ]; [ cbn; lia | ].
      apply Z.lt_succ_r. replace (Z.succ (bits - 1)) with bits by lia.
      apply Z.log2_lt_pow2; lia. }
    cbn. lia. }
  assert (Hpos : 0 < p).
  { destruct (Z.eq_dec p 0) as [E | ]; [ | lia ].
    rewrite E in Hodd. discriminate. }
  pose proof (Z.log2_spec p Hpos) as Hspec. rewrite Hlog in Hspec.
  replace (Z.succ (bits - 1)) with bits in Hspec by lia.
  now repeat split.
Qed.

Lemma generate_prime_Ok (fuel : nat) (bits : Z) :
  forall t p t',
    generate_prime fuel bits t = Ok (p, t') ->
    1 <= bits /\
    (exists r, 0 <= r < 2 ^ bits /\ p = Z.lor r (Z.lor (Z.shiftl 1 (bits - 1)) 1)) /\
    (exists t1 t2, is_prime p default_rounds t1 = Ok (true, t2)).
Proof.
  induction fuel as [ | fuel IH ]; intros t p t'; cbn [generate_prime];
    [ discriminate | ].
  intros H.
  apply bind_Ok in H as (r & t1 & Hr & H).
  apply bind_Ok in H as (top & t2 & Htop & H).
  apply bind_Ok in H as (ok & t3 & Hok & H).
  apply getrandbits_Ok in Hr as [Hbits Hr].
  apply lift_Ok in Htop as [Htop ->].
  unfold Py.shl in Htop.
  destruct (Z.ltb_spec (bits - 1) 0); [ discriminate | ].
  injection Htop as <-.
  destruct ok.
  - apply ret_Ok in H as [-> ->].
    split; [ lia | ]. split; [ now exists r | now exists t1, t3 ].
  - eapply IH. eassumption.
Qed.



(** ** generate_keypair *)

Lemma distinct_q_Ok (fuel : nat) (half p : Z) :
  forall q t q' t', distinct_q fuel half p q t = Ok (q', t') -> p <> q'.
Proof.
  induction fuel as [ | fuel IH ]; intros q t q' t'; cbn [distinct_q];
    destruct (Z.eqb_spec p q) as [ | Hne ];
    try discriminate;
    try (intros H; apply ret_Ok in H as [-> _]; assumption).
  intros H. apply bind_Ok in H as (q1 & t1 & _ & H).
  eapply IH. eassumption.
Qed.

Lemma generate_primes_Ok (fuel : nat) (bits : Z) (t : tape) (p q : Z) (t' : tape) :
  generate_primes fuel bits t = Ok ((p, q), t') -> p <> q.
Proof.
  unfold generate_primes. intros H.
  apply bind_Ok in H as (p1 & t1 & _ & H).
  apply bind_Ok in H as (q1 & t2 & _ & H).
  apply bind_Ok in H as (q2 & t3 & Hq & H).
  apply ret_Ok in H as [[= -> ->] _].
  eapply distinct_q_Ok. eassumption.
Qed.

Lemma coprime_e_Ok (fuel : nat) (phi : Z) :
  forall e t e' t',
    2 <= e <= phi - 1 ->
    coprime_e fuel e phi t = Ok (e', t') ->
    2 <= e' <= phi - 1 /\ Z.gcd e' phi = 1.
Proof.
  induction fuel as [ | fuel IH ]; intros e t e' t' He; cbn [coprime_e];
    unfold bind at 1, lift; rewrite gcd_spec by lia;
    destruct (Z.eqb_spec (Z.gcd e phi) 1) as [Hg | Hg];
    try discriminate;
    try (intros H; apply ret_Ok in H as [-> _]; now split).
  intros H. apply bind_Ok in H as (e1 & t1 & He1 & H).
  apply randint_Ok in He1.
  eapply IH; eassumption.
Qed.

(** What [generate_keypair] computes from the primes it has drawn. *)
Lemma keys_of_primes_Ok (fuel : nat) (p q : Z) (t : tape)
      (pk : public_key) (sk : private_key) (t' : tape) :
  keys_of_primes fuel p q t = Ok ((pk, sk), t') ->
  let phi := (p - 1) * (q - 1) in
  exists e d,
    pk = (p * q, e) /\ sk = (p * q, d) /\
    1 < e < phi /\ Z.gcd e phi = 1 /\
    mod_inverse e phi = Ok d /\ 0 <= d < phi /\ (e * d) mod phi = 1.
Proof.
  intros H. unfold keys_of_primes in H. cbv zeta in *.
  set (phi := (p - 1) * (q - 1)) in *.
  apply bind_Ok in H as (e0 & t1 & He0 & H).
  apply bind_Ok in H as (e & t2 & He & H).
  apply bind_Ok in H as (d & t3 & Hd & H).
  apply ret_Ok in H as [[= -> ->] _].
  apply lift_Ok in Hd as [Hd _].
  apply randint_Ok in He0.
  apply coprime_e_Ok in He as [He Hg]; [ | assumption ].
  destruct (mod_inverse_spec e phi ltac:(lia) ltac:(lia) Hg) as (d' & Hd' & Hrange & Hinv).
  assert (d' = d) as -> by congruence.
  exists e, d. repeat split; try assumption; lia.
Qed.

Lemma generate_keypair_Ok (fuel : nat) (bits : Z) (t : tape)
      (pk : public_key) (sk : private_key) :
  value (generate_keypair fuel bits t) = Ok (pk, sk) ->
  exists p q t1 t',
    generate_primes fuel bits t = Ok ((p, q), t1) /\
    keys_of_primes fuel p q t1 = Ok ((pk, sk), t').
Proof.
  intros H.
  destruct (generate_keypair fuel bits t) as [ [ks t'] | | ] eqn:E; try discriminate.
  injection H as ->.
  unfold generate_keypair in E.
  apply bind_Ok in E as ([p q] & t1 & Hpq & E).
  now exists p, q, t1, t'.
Qed.



(** C6, as the code has it: the exponents of every keypair that
    [generate_keypair] returns satisfy [(e * d) mod phi = 1]; and for every
    [a >= 1] and [m > 1] with [gcd(a, m) = 1], [mod_inverse(a, m)] returns
    [x] in [[0, m)] with [(a * x) mod m = 1], where [x] is the coefficient
    [c] the loop ends with, or [c + m] when [c] is negative. *)
Theorem inverse_property :
  (forall (fuel : nat) (bits : Z) (t : tape) (pk : public_key) (sk : private_key),
      value (generate_keypair fuel bits t) = Ok (pk, sk) ->
      exists p q t1,
        generate_primes fuel bits t = Ok ((p, q), t1) /\
        (snd pk * snd sk) mod ((p - 1) * (q - 1)) = 1) /\
  (forall a m : Z,
      1 <= a -> 1 < m -> Z.gcd a m = 1 ->
      exists c x,
        mod_inverse_loop (euclid_fuel m) a m 1 0 = Ok c /\
        - m < c < m /\
        x = (if c <? 0 then c + m else c) /\
        mod_inverse a m = Ok x /\ 0 <= x < m /\ (a * x) mod m = 1).
Proof.
  split.
  - intros fuel bits t pk sk H.
    apply generate_keypair_Ok in H as (p & q & t1 & t' & Hpq & Hkeys).
    apply keys_of_primes_Ok in Hkeys as (e & d & -> & -> & _ & _ & _ & _ & Hinv).
    now exists p, q, t1.
  - intros a m Ha Hm Hg.
    destruct (mod_inverse_spec a m Ha Hm Hg) as (x & Hx & Hrange & Hinv).
    pose proof (mod_inverse_loop_sound a m Hm (euclid_fuel m) _ _ _ _
                  (bezout_inv_init a m Hm Ha Hg)) as Hsound.
    unfold mod_inverse in Hx.
    destruct (Z.eqb_spec m 1); [ lia | ].
    destruct (mod_inverse_loop (euclid_fuel m) a m 1 0) as [ c | | ] eqn:E;
      try discriminate.
    exists c, x. cbn [rbind] in Hx.
    repeat split; try apply Hsound; try apply Hrange; try assumption.
    + destruct (c <? 0); congruence.
    + unfold mod_inverse. destruct (Z.eqb_spec m 1); [ lia | ].
      rewrite E. cbn [rbind]. assumption.
Qed.

Lemma inverse_property_witness :
  (value (generate_keypair 50 16 sample_tape) = Ok ((32231, 15077), (32231, 24173)) /\
   1 <= 17 /\ 1 < 3120 /\ Z.gcd 17 3120 = 1) /\
  (exists p q t1,
      generate_primes 50 16 sample_tape = Ok ((p, q), t1) /\
      (15077 * 24173) mod ((p - 1) * (q - 1)) = 1) /\
  (exists c x,
      mod_inverse_loop (euclid_fuel 3120) 17 3120 1 0 = Ok c /\
      - 3120 < c < 3120 /\
      x = (if c <? 0 then c + 3120 else c) /\
      mod_inverse 17 3120 = Ok x /\ 0 <= x < 3120 /\ (17 * x) mod 3120 = 1).
Proof.
  split; [ repeat split; try lia; vm_compute; reflexivity | ].
  split.
  - apply (proj1 inverse_property 50%nat 16 sample_tape (32231, 15077) (32231, 24173)).
    vm_compute; reflexivity.
  - apply (proj2 inverse_property 17 3120); [ lia | lia | reflexivity ].
Defined.

(** The generalisation to every [a] fails on a negative one: the loop
    [while a > 1] does not run, and 1 comes back. *)
Lemma mod_inverse_negative_base :
  1 < 5 /\ gcd (-1) 5 = Ok 1 /\ Z.gcd (-1) 5 = 1 /\
  mod_inverse (-1) 5 = Ok 1 /\ (-1 * 1) mod 5 <> 1.
Proof. repeat split; try lia; try reflexivity. discriminate. Qed.

(** ** The RSA identity *)

Lemma distinct_primes_coprime (p q : Z) :
  Z.prime p -> Z.prime q -> p <> q -> Z.gcd p q = 1.
Proof.
  intros Hp Hq Hne. apply Z.coprime_prime_l; [ assumption | ].
  intros Hdiv. destruct Hp as [Hp1 _], Hq as [Hq1 Hq].
  pose proof (Z.divide_pos_le p q ltac:(lia) Hdiv).
  apply (Hq p); [ lia | assumption ].
Qed.

(** Fermat's little theorem, for an exponent [1 + k * (p - 1)]. *)
Lemma fermat_exponent (p m k : Z) :
  Z.prime p -> 0 <= k -> m ^ (1 + k * (p - 1)) mod p = m mod p.
Proof.
  intros Hp Hk. pose proof (Z.prime_ge_2 p Hp) as Hp2.
  rewrite Z.pow_add_r, Z.pow_1_r by nia.
  destruct (Z.eq_dec (m mod p) 0) as [E | E].
  - rewrite <- Zmult_mod_idemp_l, E, Z.mul_0_l. apply Zmod_0_l.
  - rewrite Z.mul_comm, (Z.mul_comm k), Z.pow_mul_r by lia.
    rewrite <- Zmult_mod_idemp_l, <- Z.mod_pow_l.
    rewrite Z.fermat_nz by assumption.
    rewrite Z.pow_1_l by assumption.
    rewrite Z.mod_1_l by lia. now rewrite Z.mul_1_l.
Qed.

Lemma rsa_identity (p q e d m : Z) :
  Z.prime p -> Z.prime q -> p <> q ->
  0 <= e -> 0 <= d -> (e * d) mod ((p - 1) * (q - 1)) = 1 ->
  0 <= m < p * q ->
  (m ^ e mod (p * q)) ^ d mod (p * q) = m.
Proof.
  intros Hp Hq Hne He Hd Hinv Hm.
  pose proof (Z.prime_ge_2 p Hp) as Hp2.
  pose proof (Z.prime_ge_2 q Hq) as Hq2.
  set (phi := (p - 1) * (q - 1)) in *.
  assert (Hphi : 0 < phi) by (unfold phi; nia).
  rewrite Z.mod_pow_l, <- Z.pow_mul_r by assumption.
  pose proof (Z.div_mod (e * d) phi ltac:(lia)) as E. rewrite Hinv in E.
  assert (Hk : 0 <= e * d / phi) by (apply Z.div_pos; nia).
  set (k := e * d / phi) in *.
  assert (Ep : m ^ (e * d) mod p = m mod p).
  { replace (e * d) with (1 + (k * (q - 1)) * (p - 1)) by (unfold phi in E; nia).
    apply fermat_exponent; [ assumption | nia ]. }
  assert (Eq : m ^ (e * d) mod q = m mod q).
  { replace (e * d) with (1 + (k * (p - 1)) * (q - 1)) by (unfold phi in E; nia).
    apply fermat_exponent; [ assumption | nia ]. }
  apply Z.cong_iff_0 in Ep. apply Z.cong_iff_0 in Eq.
  apply Z.mod_divide in Ep; [ | lia ]. apply Z.mod_divide in Eq; [ | lia ].
  destruct Ep as [u Hu].
  assert (Hqu : (q | u)).
  { apply Z.gauss with (m := p).
    - rewrite Z.mul_comm, <- Hu. assumption.
    - rewrite Z.gcd_comm. now apply distinct_primes_coprime. }
  destruct Hqu as [v ->].
  rewrite <- (Z.mod_small m (p * q)) at 2 by assumption.
  apply Z.cong_iff_0. rewrite Hu.
  replace (v * q * p) with (v * (p * q)) by ring.
  apply Z.mod_mul. nia.
Qed.

(** ** encrypt and decrypt *)

Lemma encrypt_loop_spec (n e : Z) :
  0 <= e ->
  forall plaintext acc,
    Forall (fun c => 0 <= Py.ord c < n) plaintext ->
    encrypt_loop n e plaintext acc =
    Ok (acc ++ map (fun c => Py.ord c ^ e mod n) plaintext).
Proof.
  intros He. induction plaintext as [ | c rest IH ]; intros acc Hall.
  - cbn. now rewrite app_nil_r.
  - inversion Hall as [ | ? ? Hc Hrest ]; subst.
    cbn [encrypt_loop map].
    destruct (Z.leb_spec n (Py.ord c)); [ lia | ].
    rewrite pow_nonneg by lia. cbn [rbind].
    rewrite IH by assumption. now rewrite <- app_assoc.
Qed.


Lemma encrypt_loop_too_large_nonneg (n e : Z) :
  0 <= e ->
  forall plaintext acc,
    Py.wf_str plaintext ->
    Exists (too_large n) plaintext ->
    encrypt_loop n e plaintext acc = Ok [].
Proof.
  intros He. induction plaintext as [ | c rest IH ]; intros acc Hwf Hex.
  - inversion Hex.
  - inversion Hwf as [ | ? ? Hc Hwf' ]; subst.
    cbn [encrypt_loop].
    destruct (Z.leb_spec n (Py.ord c)) as [ | Hlt ]; [ reflexivity | ].
    inversion Hex as [ ? ? Hbig | ? ? Hrest ]; subst.
    + unfold too_large in Hbig. lia.
    + unfold Py.wf_symbol, Py.ord in *.
      rewrite pow_nonneg by lia. cbn [rbind]. now apply IH.
Qed.

(** With a non-negative exponent, [decrypt] raises exactly when some power
    is not a code point. *)
Lemma decrypt_loop_spec (n d : Z) :
  n <> 0 -> 0 <= d ->
  forall ciphertext acc,
    decrypt_loop n d ciphertext acc =
    if forallb (fun v => is_code_point (v ^ d mod n)) ciphertext
    then Ok (acc ++ map (fun v => Py.Sym (v ^ d mod n)) ciphertext)
    else Raise ValueError.
Proof.
  intros Hn Hd. induction ciphertext as [ | v rest IH ]; intros acc.
  - cbn. now rewrite app_nil_r.
  - cbn [decrypt_loop forallb map].
    rewrite pow_nonneg by assumption. cbn [rbind].
    unfold Py.chr. fold (is_code_point (v ^ d mod n)).
    destruct (is_code_point (v ^ d mod n)); cbn [rbind andb]; [ | reflexivity ].
    rewrite IH. now rewrite <- app_assoc.
Qed.





(** C4: p = 61, q = 53, e = 17. *)
Theorem textbook_scenario :
  61 * 53 = 3233 /\ (61 - 1) * (53 - 1) = 3120 /\
  gcd 17 3120 = Ok 1 /\
  mod_inverse 17 3120 = Ok 2753 /\
  (17 * 2753) mod 3120 = 1 /\
  65 ^ 17 mod 3233 = 2790 /\
  encrypt (3233, 17) [Py.Sym 65] = Ok [2790] /\
  decrypt (3233, 2753) [2790] = Ok [Py.Sym 65].
Proof. repeat split; vm_compute; reflexivity. Qed.




(** ** The round trip *)

Lemma decrypt_encrypt_loop (n e d : Z) :
  (forall m, 0 <= m < n -> (m ^ e mod n) ^ d mod n = m) ->
  n <> 0 -> 0 <= d ->
  forall message acc,
    Py.wf_str message ->
    Forall (fun c => Py.ord c < n) message ->
    decrypt_loop n d (map (fun c => Py.ord c ^ e mod n) message) acc =
    Ok (acc ++ message).
Proof.
  intros Hid Hn Hd. induction message as [ | c rest IH ]; intros acc Hwf Hlt.
  - cbn. now rewrite app_nil_r.
  - inversion Hwf as [ | ? ? Hc Hwf' ]; subst.
    inversion Hlt as [ | ? ? Hcn Hlt' ]; subst.
    destruct c as [i].
    assert (Hi : 0 <= i < Py.max_code) by exact Hc.
    assert (Hin : i < n) by exact Hcn.
    cbn [map decrypt_loop]. change (Py.ord (Py.Sym i)) with i.
    rewrite pow_nonneg by assumption. cbn [rbind].
    rewrite Hid by lia.
    unfold Py.chr.
    destruct (Z.leb_spec 0 i); [ | lia ].
    destruct (Z.ltb_spec i Py.max_code); [ | lia ].
    cbn [andb rbind]. rewrite IH by assumption.
    now rewrite <- app_assoc.
Qed.

Lemma trial_division_prime (p : Z) :
  1 < p -> trial_division p = true -> Z.prime p.
Proof.
  intros Hp Hcheck. split; [ assumption | ].
  intros n Hn Hdiv. unfold trial_division in Hcheck.
  rewrite forallb_forall in Hcheck.
  specialize (Hcheck n (witnesses_complete (p + 1) n ltac:(lia))).
  apply Z.mod_divide in Hdiv; [ | lia ].
  rewrite Hdiv in Hcheck. discriminate.
Qed.

(** C1: for a keypair that [generate_keypair] returns from two primes, and
    a message whose symbols all have a code below [n], decrypting the
    encryption of the message gives the message back. *)
Theorem round_trip (fuel : nat) (bits : Z) (t : tape)
        (pk : public_key) (sk : private_key) (message : Py.str) :
  value (generate_keypair fuel bits t) = Ok (pk, sk) ->
  (forall p q t1,
      generate_primes fuel bits t = Ok ((p, q), t1) -> Z.prime p /\ Z.prime q) ->
  Py.wf_str message ->
  Forall (fun c => Py.ord c < fst pk) message ->
  exists ciphertext,
    encrypt pk message = Ok ciphertext /\ decrypt sk ciphertext = Ok message.
Proof.
  intros Hkeys Hprimes Hwf Hlt.
  apply generate_keypair_Ok in Hkeys as (p & q & t1 & t' & Hpq & Hkeys).
  destruct (Hprimes p q t1 Hpq) as [Hp Hq].
  pose proof (generate_primes_Ok _ _ _ _ _ _ Hpq) as Hne.
  apply keys_of_primes_Ok in Hkeys
    as (e & d & -> & -> & He & Hg & _ & Hd & Hinv).
  cbn [fst] in Hlt.
  pose proof (Z.prime_ge_2 p Hp) as Hp2.
  pose proof (Z.prime_ge_2 q Hq) as Hq2.
  exists (map (fun c => Py.ord c ^ e mod (p * q)) message).
  cbn [encrypt decrypt]. split.
  - rewrite encrypt_loop_spec; [ reflexivity | lia | ].
    unfold Py.wf_str in Hwf. rewrite Forall_forall in *. intros c Hc.
    specialize (Hwf c Hc). specialize (Hlt c Hc).
    unfold Py.wf_symbol, Py.ord in *. lia.
  - rewrite decrypt_encrypt_loop; try assumption; try reflexivity; try nia.
    intros m Hm. apply rsa_identity; try assumption; lia.
Qed.

Lemma round_trip_witness :
  (value (generate_keypair 50 16 sample_tape) =
     Ok ((32231, 15077), (32231, 24173)) /\
   (forall p q t1,
       generate_primes 50 16 sample_tape = Ok ((p, q), t1) ->
       Z.prime p /\ Z.prime q) /\
   Py.wf_str [Py.Sym 72; Py.Sym 105] /\
   Forall (fun c => Py.ord c < fst (32231, 15077)) [Py.Sym 72; Py.Sym 105]) /\
  exists ciphertext,
    encrypt (32231, 15077) [Py.Sym 72; Py.Sym 105] = Ok ciphertext /\
    decrypt (32231, 24173) ciphertext = Ok [Py.Sym 72; Py.Sym 105].
Proof.
  assert (Hkeys : value (generate_keypair 50 16 sample_tape) =
                    Ok ((32231, 15077), (32231, 24173)))
    by (vm_compute; reflexivity).
  assert (Hprimes : forall p q t1,
             generate_primes 50 16 sample_tape = Ok ((p, q), t1) ->
             Z.prime p /\ Z.prime q).
  { intros p q t1 H.
    assert (E : value (generate_primes 50 16 sample_tape) = Ok (p, q))
      by now rewrite H.
    vm_compute in E. injection E as <- <-.
    split; apply trial_division_prime; try lia; vm_compute; reflexivity. }
  assert (Hwf : Py.wf_str [Py.Sym 72; Py.Sym 105])
    by (repeat constructor; cbn; unfold Py.max_code; lia).
  assert (Hlt : Forall (fun c => Py.ord c < fst (32231, 15077))
                       [Py.Sym 72; Py.Sym 105])
    by (repeat constructor; cbn; lia).
  split; [ exact (conj Hkeys (conj Hprimes (conj Hwf Hlt))) | ].
  exact (round_trip 50 16 sample_tape (32231, 15077) (32231, 24173)
           [Py.Sym 72; Py.Sym 105] Hkeys Hprimes Hwf Hlt).
Defined.

(** * Further properties of the engine *)

(** ** gcd on all integers *)

Lemma gcd_loop_opp (fuel : nat) :
  forall a b,
    gcd_loop fuel (- a) (- b) = rbind (gcd_loop fuel a b) (fun r => Ok (- r)).
Proof.
  induction fuel as [ | fuel IH ]; intros a b; cbn [gcd_loop];
    destruct (Z.eqb_spec b 0) as [-> | Hb ];
    try reflexivity;
    (destruct (Z.eqb_spec (- b) 0); [ lia | ]); try reflexivity.
  rewrite Z.mod_opp_opp by assumption. apply IH.
Qed.

Lemma gcd_pos (a b : Z) : 0 < b -> gcd a b = Ok (Z.gcd a b).
Proof.
  intros Hb. unfold gcd.
  destruct (euclid_fuel_enough b ltac:(lia)) as [Hk Hfuel].
  destruct (gcd_loop_returns (bit_fuel b) a b (euclid_fuel b) Hk ltac:(lia))
    as [r E].
  rewrite E. f_equal.
  unfold euclid_fuel in E. cbn [gcd_loop] in E.
  destruct (Z.eqb_spec b 0); [ lia | ].
  apply gcd_loop_sound in E.
  - rewrite E, Z.gcd_comm. apply Z.gcd_mod_l.
  - lia.
  - apply Z.mod_pos_bound, Hb.
Qed.

(** X1: The loop of [gcd] ends on every pair of integers. On [b = 0] the
    answer is [a] itself, negative or not; otherwise it is the greatest
    common divisor with the sign of [b]. *)
Theorem gcd_all_integers (a b : Z) :
  gcd a b = Ok (if b =? 0 then a else Z.sgn b * Z.gcd a b).
Proof.
  destruct (Z.eqb_spec b 0) as [-> | Hb ].
  - reflexivity.
  - destruct (Z.lt_trichotomy b 0) as [Hneg | [ | Hpos ] ]; [ | contradiction | ].
    + rewrite Z.sgn_neg by assumption.
      replace a with (- - a) at 1 by lia. replace b with (- - b) at 1 by lia.
      unfold gcd. unfold euclid_fuel, bit_fuel. rewrite Z.abs_opp.
      fold (bit_fuel (- b)). fold (euclid_fuel (- b)).
      rewrite gcd_loop_opp. fold (gcd (- a) (- b)).
      rewrite gcd_pos by lia. cbn [rbind].
      rewrite Z.gcd_opp_l, Z.gcd_opp_r. f_equal; lia.
    + rewrite Z.sgn_pos by assumption. rewrite gcd_pos by assumption.
      f_equal; lia.
Qed.

(** ** mod_inverse outside its domain *)

Lemma mod_inverse_loop_not_coprime (fuel : nat) :
  forall a m x y,
    1 < a -> 0 <= m -> Z.gcd a m <> 1 ->
    mod_inverse_loop fuel a m x y = Raise ZeroDivisionError \/
    mod_inverse_loop fuel a m x y = OutOfFuel.
Proof.
  induction fuel as [ | fuel IH ]; intros a m x y Ha Hm Hg; cbn [mod_inverse_loop];
    destruct (Z.ltb_spec 1 a); try lia; [ now right | ].
  unfold Py.floordiv, Py.modulo.
  destruct (Z.eqb_spec m 0) as [ | Hm0 ]; [ now left | ].
  cbn [rbind]. apply IH.
  - destruct (Z.eq_dec m 1) as [-> | ]; [ | lia ].
    rewrite Z.gcd_1_r in Hg. contradiction.
  - apply Z.mod_pos_bound. lia.
  - rewrite Z.gcd_comm, Z.gcd_mod_l. assumption.
Qed.

(** X2: When [a > 1] shares a factor with [m >= 0], no inverse exists and
    [mod_inverse] ends in a division by zero: the loop reaches [m = 0] with
    [a] still above 1. *)
Theorem mod_inverse_not_coprime (a m : Z) :
  1 < a -> 0 <= m -> Z.gcd a m <> 1 ->
  mod_inverse a m = Raise ZeroDivisionError.
Proof.
  intros Ha Hm Hg. unfold mod_inverse.
  destruct (Z.eqb_spec m 1) as [-> | _ ].
  - rewrite Z.gcd_1_r in Hg. contradiction.
  - destruct (euclid_fuel_enough m Hm) as [Hk Hfuel].
    pose proof (mod_inverse_loop_finishes (bit_fuel m) a m 1 0 (euclid_fuel m) Hk Hfuel)
      as Hfin.
    destruct (mod_inverse_loop_not_coprime (euclid_fuel m) a m 1 0 Ha Hm Hg)
      as [E | E]; [ now rewrite E | contradiction ].
Qed.

Lemma mod_inverse_not_coprime_witness :
  (1 < 4 /\ 0 <= 6 /\ Z.gcd 4 6 <> 1) /\ mod_inverse 4 6 = Raise ZeroDivisionError.
Proof.
  split; [ repeat split; try lia; discriminate | ].
  apply (mod_inverse_not_coprime 4 6); [ lia | lia | discriminate ].
Defined.

(** X3: For [a >= 1] coprime to [m > 1], what [mod_inverse] returns is the only
    inverse of [a] in [[0, m)], and it is the value of [pow(a, -1, m)]. *)
Theorem mod_inverse_unique (a m : Z) :
  1 <= a -> 1 < m -> Z.gcd a m = 1 ->
  (forall x, 0 <= x < m -> (a * x) mod m = 1 -> mod_inverse a m = Ok x) /\
  mod_inverse a m = Py.pow a (-1) m.
Proof.
  intros Ha Hm Hg.
  destruct (mod_inverse_spec a m Ha Hm Hg) as (x0 & E & Hx0 & Hinv0).
  assert (Huniq : forall x, 0 <= x < m -> (a * x) mod m = 1 -> x0 = x).
  { intros x Hx Hinv.
    assert (Hdiv : (m | a * (x0 - x))).
    { apply Z.mod_divide; [ lia | ].
      replace (a * (x0 - x)) with (a * x0 - a * x) by ring.
      apply Z.cong_iff_0. congruence. }
    apply Z.gauss in Hdiv; [ | now rewrite Z.gcd_comm ].
    destruct Hdiv as [k Hk].
    assert (k = 0) by nia. lia. }
  split.
  - intros x Hx Hinv. rewrite E. f_equal. now apply Huniq.
  - rewrite E. unfold Py.pow.
    destruct (Z.eqb_spec m 0); [ lia | ].
    cbn [Z.ltb Z.compare]. rewrite Hg. cbn [Z.eqb Pos.eqb].
    cbn [Z.opp Py.powmod Py.powmod_pos]. rewrite Z.mod_invmod.
    f_equal. apply Huniq.
    + rewrite <- (Z.mod_invmod m a). apply Z.mod_pos_bound. lia.
    + rewrite Z.mul_comm. apply Z.invmod_coprime; [ lia | assumption ].
Qed.

Lemma mod_inverse_unique_witness :
  (1 <= 17 /\ 1 < 3120 /\ Z.gcd 17 3120 = 1) /\
  (forall x, 0 <= x < 3120 -> (17 * x) mod 3120 = 1 -> mod_inverse 17 3120 = Ok x) /\
  mod_inverse 17 3120 = Py.pow 17 (-1) 3120.
Proof.
  split; [ repeat split; try lia | ].
  apply (mod_inverse_unique 17 3120); [ lia | lia | reflexivity ].
Defined.

(** ** is_prime on primes *)

Lemma factor_twos_spec (fuel : nat) :
  forall s0 d0 s d,
    0 < d0 ->
    factor_twos fuel s0 d0 = Ok (s, d) ->
    s0 <= s /\ d0 = 2 ^ (s - s0) * d /\ d mod 2 = 1 /\ 0 < d /\
    (d0 mod 2 = 0 -> s0 < s).
Proof.
  induction fuel as [ | fuel IH ]; intros s0 d0 s d Hd0; cbn [factor_twos];
    [ discriminate | ].
  pose proof (Z.mod_pos_bound d0 2 ltac:(lia)) as Hmod.
  pose proof (Z.div_mod d0 2 ltac:(lia)) as Hdiv.
  destruct (Z.eqb_spec (d0 mod 2) 0) as [Heven | Hodd ].
  - intros H. apply IH in H; [ | lia ].
    destruct H as (Hs & Hd & Hd2 & Hpos & _).
    repeat split; try lia.
    replace (s - s0) with (Z.succ (s - (s0 + 1))) by lia.
    rewrite Z.pow_succ_r by lia. lia.
  - intros [= <- <-]. rewrite Z.sub_diag, Z.pow_0_r. repeat split; lia.
Qed.

(** Modulo a prime, 1 has the two square roots 1 and [n - 1] only. *)
Lemma sqrt_one_prime (n x : Z) :
  Z.prime n -> 0 <= x < n -> (x * x) mod n = 1 -> x = 1 \/ x = n - 1.
Proof.
  intros Hn Hx Hsq. pose proof (Z.prime_ge_2 n Hn) as Hn2.
  assert (Hdiv : (n | (x - 1) * (x + 1))).
  { apply Z.mod_divide; [ lia | ].
    replace ((x - 1) * (x + 1)) with (x * x - 1) by ring.
    apply Z.cong_iff_0. rewrite Hsq. symmetry. apply Z.mod_1_l. lia. }
  apply (Z.divide_prime_mul _ _ n Hn) in Hdiv as [[k Hk] | [k Hk]].
  - left. assert (k = 0) by nia. lia.
  - right. assert (k = 1) by nia. lia.
Qed.

Lemma squarings_prime (n : Z) :
  Z.prime n ->
  forall (cnt : nat) (x : Z),
    0 <= x < n -> x <> 1 -> x <> n - 1 ->
    x ^ (2 ^ Z.of_nat (S cnt)) mod n = 1 ->
    squarings cnt x n = Ok true.
Proof.
  intros Hn. pose proof (Z.prime_ge_2 n Hn) as Hn2.
  induction cnt as [ | cnt IH ]; intros x Hx H1 Hm1 Hpow.
  - exfalso. change (2 ^ Z.of_nat 1) with 2 in Hpow.
    rewrite Z.pow_2_r in Hpow.
    destruct (sqrt_one_prime n x Hn Hx Hpow); contradiction.
  - cbn [squarings]. rewrite pow_nonneg by lia. cbn [rbind].
    destruct (Z.eqb_spec (x ^ 2 mod n) (n - 1)) as [ | Hnext ]; [ reflexivity | ].
    apply IH.
    + apply Z.mod_pos_bound. lia.
    + intros Hone. rewrite Z.pow_2_r in Hone.
      destruct (sqrt_one_prime n x Hn Hx Hone); contradiction.
    + assumption.
    + rewrite Z.mod_pow_l, <- Z.pow_mul_r by lia.
      rewrite <- Z.pow_succ_r by lia. rewrite <- Nat2Z.inj_succ. assumption.
Qed.

(** Every witness passes its round when [n] is prime. *)
Lemma witness_round_prime (n s d a : Z) :
  Z.prime n -> 1 <= s -> 0 < d -> n - 1 = 2 ^ s * d ->
  2 <= a <= n - 2 ->
  witness_round n s d a = Ok true.
Proof.
  intros Hn Hs Hd Hdec Ha. pose proof (Z.prime_ge_2 n Hn) as Hn2.
  unfold witness_round. rewrite pow_nonneg by lia. cbn [rbind].
  destruct (Z.eqb_spec (a ^ d mod n) 1) as [ | H1 ]; [ reflexivity | ].
  destruct (Z.eqb_spec (a ^ d mod n) (n - 1)) as [ | Hm1 ]; [ reflexivity | ].
  cbn [orb]. apply squarings_prime; try assumption.
  - apply Z.mod_pos_bound. lia.
  - rewrite Nat2Z.inj_succ, Z2Nat.id by lia.
    replace (Z.succ (s - 1)) with s by lia.
    rewrite Z.mod_pow_l, <- Z.pow_mul_r by lia.
    rewrite Z.mul_comm, <- Hdec.
    apply Z.fermat_nz; [ assumption | ].
    rewrite Z.mod_small by lia. lia.
Qed.

Lemma prime_above_4_odd (n : Z) : Z.prime n -> n <> 2 -> n <> 3 -> 5 <= n /\ n mod 2 = 1.
Proof.
  intros [Hn1 Hn] H2 H3.
  assert (H4 : n <> 4).
  { intros ->. apply (Hn 2); [ lia | ]. now exists 2. }
  split; [ lia | ].
  pose proof (Z.mod_pos_bound n 2 ltac:(lia)).
  destruct (Z.eq_dec (n mod 2) 0) as [E | ]; [ | lia ].
  exfalso. apply (Hn 2); [ lia | ].
  apply Z.mod_divide; [ lia | assumption ].
Qed.

Lemma is_prime_on_prime (n k : Z) (t : tape) :
  Z.prime n -> value (is_prime n k t) = Ok true.
Proof.
  intros Hn.
  destruct (Z.eq_dec n 2) as [-> | H2 ]; [ reflexivity | ].
  destruct (Z.eq_dec n 3) as [-> | H3 ]; [ reflexivity | ].
  destruct (prime_above_4_odd n Hn H2 H3) as [H5 Hodd].
  rewrite is_prime_odd by assumption.
  destruct (factor_twos_returns (bit_fuel (n - 1)) 0 (n - 1)) as [[s d] E].
  { apply bit_fuel_enough. lia. }
  unfold bind, lift. rewrite E. cbn [fst snd].
  apply factor_twos_spec in E; [ | lia ].
  destruct E as (_ & Hdec & _ & Hd & Hs).
  rewrite Z.sub_0_r in Hdec.
  assert (Heven : (n - 1) mod 2 = 0).
  { rewrite <- Zminus_mod_idemp_l, Hodd. reflexivity. }
  apply witness_loop_all_pass; [ | lia ].
  intros a Ha. apply witness_round_prime; try assumption. lia.
Qed.

(** X4: [is_prime] has no false negative: a prime is reported as probably
    prime whatever the number of rounds and the witnesses drawn; so the
    answer [False] is a proof of compositeness. *)
Theorem is_prime_accepts_primes (n k : Z) (t : tape) :
  (Z.prime n -> value (is_prime n k t) = Ok true) /\
  (value (is_prime n k t) = Ok false -> ~ Z.prime n).
Proof.
  split; [ apply is_prime_on_prime | ].
  intros Hfalse Hn. rewrite (is_prime_on_prime n k t Hn) in Hfalse. discriminate.
Qed.

Lemma is_prime_accepts_primes_witness :
  (Z.prime 7919 /\ value (is_prime 7917 3 sample_tape) = Ok false) /\
  value (is_prime 7919 3 sample_tape) = Ok true /\ ~ Z.prime 7917.
Proof.
  assert (Hp : Z.prime 7919)
    by (apply trial_division_prime; [ lia | vm_compute; reflexivity ]).
  assert (Hc : value (is_prime 7917 3 sample_tape) = Ok false)
    by (vm_compute; reflexivity).
  split; [ now split | ]. split.
  - exact (proj1 (is_prime_accepts_primes 7919 3 sample_tape) Hp).
  - exact (proj2 (is_prime_accepts_primes 7917 3 sample_tape) Hc).
Defined.

(** ** is_prime never raises *)

Lemma squarings_returns (n : Z) :
  n <> 0 -> forall (cnt : nat) (x : Z), returns (squarings cnt x n).
Proof.
  intros Hn. induction cnt as [ | cnt IH ]; intros x; cbn [squarings].
  - now exists false.
  - rewrite pow_nonneg by lia. cbn [rbind].
    destruct (_ =? _); [ now exists true | apply IH ].
Qed.

Lemma witness_loop_returns (n s d : Z) :
  4 <= n -> 0 <= d ->
  forall (k : nat) (t : tape), exists b t', witness_loop k n s d t = Ok (b, t').
Proof.
  intros Hn Hd. induction k as [ | k IH ]; intros t.
  - now exists true, t.
  - cbn [witness_loop]. unfold bind at 1.
    rewrite randint_returns by lia.
    unfold bind at 1, lift, witness_round.
    rewrite pow_nonneg by lia. cbn [rbind].
    destruct (_ || _).
    + apply IH.
    + destruct (squarings_returns n ltac:(lia) (Z.to_nat (s - 1))
                  ((2 + t O mod (n - 2 - 2 + 1)) ^ d mod n)) as [b E].
      rewrite E. destruct b; [ apply IH | ].
      now exists false, (fun i => t (S i)).
Qed.

(** X5: [is_prime] answers on every integer, for every round count and every
    tape: its range for [randint] is never empty, its modulus for [pow] never
    zero, and the halving loop ends. *)
Theorem is_prime_total (n k : Z) (t : tape) :
  exists b t', is_prime n k t = Ok (b, t').
Proof.
  unfold is_prime.
  destruct (Z.leb_spec n 1); [ now exists false, t | ].
  destruct (Z.eqb_spec n 4); [ now exists false, t | ].
  destruct (Z.leb_spec n 3); [ now exists true, t | ].
  cbn [orb].
  destruct (Z.eqb_spec (n mod 2) 0); [ now exists false, t | ].
  destruct (factor_twos_returns (bit_fuel (n - 1)) 0 (n - 1)) as [[s d] E].
  { apply bit_fuel_enough. lia. }
  unfold bind, lift. rewrite E. cbn [fst snd].
  apply factor_twos_spec in E; [ | lia ].
  apply witness_loop_returns; lia.
Qed.

(** ** A false positive *)

(** X6: The composite 25 has the strong liar 7: on a tape that draws it every
    time, [is_prime] reports 25 as probably prime however many rounds are
    asked for. *)
Theorem is_prime_false_positive (k : Z) :
  ~ Z.prime 25 /\ value (is_prime 25 k (fun _ => 5)) = Ok true.
Proof.
  split.
  - intros [_ H]. apply (H 5); [ lia | ]. now exists 5.
  - rewrite is_prime_odd by (try lia; reflexivity).
    unfold bind, lift.
    change (factor_twos (bit_fuel (25 - 1)) 0 (25 - 1)) with (@Ok (Z * Z) (3, 3)).
    cbn [fst snd].
    induction (Z.to_nat k) as [ | r IH ]; [ reflexivity | ].
    cbn [witness_loop]. unfold bind at 1.
    rewrite randint_returns by lia.
    unfold bind at 1, lift.
    change (witness_round 25 3 3 (2 + 5 mod (25 - 2 - 2 + 1))) with (@Ok bool true).
    exact IH.
Qed.

(** ** generate_prime at the small bit lengths *)

Lemma getrandbits_returns (k : Z) (t : tape) :
  0 <= k -> getrandbits k t = Ok (t O mod 2 ^ k, fun i => t (S i)).
Proof.
  intros Hk. unfold getrandbits. destruct (Z.ltb_spec k 0); [ lia | reflexivity ].
Qed.

(** One turn of the loop of [generate_prime]. *)
Lemma generate_prime_step (fuel : nat) (bits : Z) (t : tape) :
  1 <= bits ->
  generate_prime (S fuel) bits t =
  let p := Z.lor (t O mod 2 ^ bits) (Z.lor (Z.shiftl 1 (bits - 1)) 1) in
  match is_prime p default_rounds (fun i => t (S i)) with
  | Ok (true, t') => Ok (p, t')
  | Ok (false, t') => generate_prime fuel bits t'
  | Raise e => Raise e
  | OutOfFuel => OutOfFuel
  end.
Proof.
  intros Hbits. cbn [generate_prime]. unfold bind at 1.
  rewrite getrandbits_returns by lia.
  unfold bind at 1, lift, Py.shl.
  destruct (Z.ltb_spec (bits - 1) 0); [ lia | ].
  unfold bind. cbv zeta.
  destruct (is_prime _ default_rounds _) as [ [[ | ] t'] | | ]; reflexivity.
Qed.

Lemma generate_prime_one (fuel : nat) :
  forall t, generate_prime fuel 1 t = OutOfFuel.
Proof.
  induction fuel as [ | fuel IH ]; intros t; [ reflexivity | ].
  rewrite generate_prime_step by lia. cbv zeta.
  assert (E : Z.lor (t O mod 2 ^ 1) (Z.lor (Z.shiftl 1 (1 - 1)) 1) = 1).
  { pose proof (Z.mod_pos_bound (t O) (2 ^ 1) ltac:(lia)) as H.
    change (2 ^ 1) with 2 in *.
    assert (Hr : t O mod 2 = 0 \/ t O mod 2 = 1) by lia.
    destruct Hr as [-> | ->]; reflexivity. }
  rewrite E. change (is_prime 1 default_rounds (fun i => t (S i)))
    with (@Ok (bool * tape) (false, fun i => t (S i))).
  apply IH.
Qed.

Lemma generate_prime_two (fuel : nat) (t : tape) :
  generate_prime (S fuel) 2 t = Ok (3, fun i => t (S i)).
Proof.
  rewrite generate_prime_step by lia. cbv zeta.
  assert (E : Z.lor (t O mod 2 ^ 2) (Z.lor (Z.shiftl 1 (2 - 1)) 1) = 3).
  { pose proof (Z.mod_pos_bound (t O) (2 ^ 2) ltac:(lia)) as H.
    change (2 ^ 2) with 4 in *.
    assert (Hr : t O mod 4 = 0 \/ t O mod 4 = 1 \/ t O mod 4 = 2 \/ t O mod 4 = 3)
      by lia.
    destruct Hr as [-> | [-> | [-> | ->]]]; reflexivity. }
  rewrite E. reflexivity.
Qed.

Lemma generate_prime_no_bits (fuel : nat) (bits : Z) (t : tape) :
  bits <= 0 -> generate_prime (S fuel) bits t = Raise ValueError.
Proof.
  intros Hbits. cbn [generate_prime]. unfold bind at 1, getrandbits.
  destruct (Z.ltb_spec bits 0); [ reflexivity | ].
  cbn [next]. unfold bind at 1, lift, Py.shl.
  destruct (Z.ltb_spec (bits - 1) 0); [ reflexivity | lia ].
Qed.

(** X7: [generate_prime(bits)] raises [ValueError] for [bits <= 0]; for
    [bits = 1] the only candidate is 1, which [is_prime] rejects, and the
    loop never ends; for [bits = 2] the only candidate is 3, returned at the
    first draw. *)
Theorem generate_prime_small_bits (fuel : nat) (bits : Z) (t : tape) :
  (bits <= 0 -> generate_prime (S fuel) bits t = Raise ValueError) /\
  (bits = 1 -> generate_prime fuel bits t = OutOfFuel) /\
  (bits = 2 -> value (generate_prime (S fuel) bits t) = Ok 3).
Proof.
  split; [ | split ].
  - apply generate_prime_no_bits.
  - intros ->. apply generate_prime_one.
  - intros ->. now rewrite generate_prime_two.
Qed.

Lemma generate_prime_small_bits_witness :
  (0 <= 0 /\ 1 = 1 /\ 2 = 2) /\
  generate_prime 3 0 sample_tape = Raise ValueError /\
  generate_prime 3 1 sample_tape = OutOfFuel /\
  value (generate_prime 3 2 sample_tape) = Ok 3.
Proof.
  split; [ repeat split; lia | ].
  pose proof (generate_prime_small_bits 2 0 sample_tape) as H0.
  pose proof (generate_prime_small_bits 3 1 sample_tape) as H1.
  pose proof (generate_prime_small_bits 2 2 sample_tape) as H2.
  split; [ | split ].
  - apply H0. lia.
  - apply H1. reflexivity.
  - apply H2. reflexivity.
Defined.

(** ** generate_prime reaches every odd prime of the requested size *)

Lemma forced_bits_already_set (bits p : Z) :
  1 <= bits -> 2 ^ (bits - 1) <= p < 2 ^ bits -> Z.odd p = true ->
  Z.lor p (Z.lor (Z.shiftl 1 (bits - 1)) 1) = p.
Proof.
  intros Hbits Hp Hodd.
  assert (Hpos : 0 < p).
  { pose proof (Z.pow_pos_nonneg 2 (bits - 1)). lia. }
  assert (Hlog : Z.log2 p = bits - 1).
  { apply Z.log2_unique; [ lia | ].
    replace (Z.succ (bits - 1)) with bits by lia. assumption. }
  apply Z.bits_inj'. intros i Hi.
  rewrite !Z.lor_spec, Z.shiftl_1_l.
  destruct (Z.eq_dec i (bits - 1)) as [-> | Htop ].
  - rewrite <- Hlog, Z.bit_log2 by assumption. reflexivity.
  - rewrite Z.pow2_bits_false by lia.
    destruct (Z.eq_dec i 0) as [-> | Hlow ].
    + rewrite Z.bit0_odd, Hodd. reflexivity.
    + change 1 with (2 ^ 0). rewrite Z.pow2_bits_false by lia.
      now rewrite !orb_false_r.
Qed.

(** X8: When the first draw is an odd prime [p] of exactly [bits] bits,
    [generate_prime(bits)] returns [p]: forcing the two bits changes
    nothing, and [is_prime] accepts [p] on any witnesses. *)
Theorem generate_prime_reaches (fuel : nat) (bits p : Z) (t : tape) :
  Z.prime p -> Z.odd p = true ->
  2 ^ (bits - 1) <= p < 2 ^ bits ->
  t O = p ->
  value (generate_prime (S fuel) bits t) = Ok p.
Proof.
  intros Hprime Hodd Hrange Ht.
  pose proof (Z.prime_ge_2 p Hprime) as Hp2.
  assert (Hbits : 1 <= bits).
  { destruct (Z.le_gt_cases 1 bits) as [ | Hlt ]; [ assumption | exfalso ].
    assert (2 ^ bits <= 2 ^ 0) by (destruct (Z.lt_ge_cases bits 0);
      [ rewrite Z.pow_neg_r by assumption; cbn; lia
      | apply Z.pow_le_mono_r; lia ]).
    change (2 ^ 0) with 1 in *. lia. }
  rewrite generate_prime_step by assumption. cbv zeta.
  rewrite Ht, Z.mod_small by lia.
  rewrite forced_bits_already_set by assumption.
  pose proof (is_prime_on_prime p default_rounds (fun i => t (S i)) Hprime) as Hacc.
  destruct (is_prime p default_rounds (fun i => t (S i))) as [ [b t'] | | ];
    try discriminate.
  injection Hacc as ->. reflexivity.
Qed.

Lemma generate_prime_reaches_witness :
  (Z.prime 167 /\ Z.odd 167 = true /\ 2 ^ (8 - 1) <= 167 < 2 ^ 8 /\
   (fun _ : nat => 167) O = 167) /\
  value (generate_prime 1 8 (fun _ => 167)) = Ok 167.
Proof.
  assert (Hp : Z.prime 167)
    by (apply trial_division_prime; [ lia | vm_compute; reflexivity ]).
  assert (Hr : 2 ^ (8 - 1) <= 167 < 2 ^ 8) by (cbn; lia).
  split; [ exact (conj Hp (conj eq_refl (conj Hr eq_refl))) | ].
  exact (generate_prime_reaches 0 8 167 (fun _ => 167) Hp eq_refl Hr eq_refl).
Defined.

(** ** generate_keypair below six bits *)

Lemma distinct_q_stuck (fuel : nat) :
  forall t, distinct_q fuel 2 3 3 t = OutOfFuel.
Proof.
  induction fuel as [ | fuel IH ]; intros t; [ reflexivity | ].
  cbn [distinct_q Z.eqb Pos.eqb]. unfold bind.
  rewrite generate_prime_two. apply IH.
Qed.

(** X9: [generate_keypair(bits)] returns no keypair for [bits < 6]: it raises
    [ValueError] for [bits <= 1], where [bits // 2 <= 0]; for [bits] 2 or 3
    [generate_prime(1)] never ends; for [bits] 4 or 5 both primes are 3 and
    the loop [while p == q] never ends. *)
Theorem generate_keypair_small_bits (fuel : nat) (bits : Z) (t : tape) :
  (bits <= 1 -> generate_keypair (S fuel) bits t = Raise ValueError) /\
  (2 <= bits <= 5 -> generate_keypair fuel bits t = OutOfFuel).
Proof.
  split.
  - intros Hbits.
    assert (Hhalf : bits / 2 <= 0).
    { apply Z.lt_succ_r. apply Z.div_lt_upper_bound; lia. }
    unfold generate_keypair, generate_primes, bind.
    now rewrite generate_prime_no_bits.
  - intros Hbits.
    assert (Hhalf : bits / 2 = 1 \/ bits / 2 = 2).
    { assert (bits = 2 \/ bits = 3 \/ bits = 4 \/ bits = 5) as [-> | [-> | [-> | ->]]]
        by lia; cbn; lia. }
    unfold generate_keypair, generate_primes, bind.
    destruct Hhalf as [-> | ->].
    + now rewrite generate_prime_one.
    + destruct fuel as [ | fuel ]; [ reflexivity | ].
      rewrite !generate_prime_two. now rewrite distinct_q_stuck.
Qed.

Lemma generate_keypair_small_bits_witness :
  (1 <= 1 /\ 2 <= 4 <= 5) /\
  generate_keypair 9 1 sample_tape = Raise ValueError /\
  generate_keypair 9 4 sample_tape = OutOfFuel.
Proof.
  split; [ lia | ]. split.
  - apply (proj1 (generate_keypair_small_bits 8 1 sample_tape)). lia.
  - apply (proj2 (generate_keypair_small_bits 9 4 sample_tape)). lia.
Defined.

(** ** The shape of a generated keypair *)

Lemma generate_prime_shape (fuel : nat) (bits : Z) (t : tape) (p : Z) (t' : tape) :
  generate_prime fuel bits t = Ok (p, t') -> 1 <= bits /\ has_bits bits p.
Proof.
  intros H. apply generate_prime_Ok in H as (Hbits & (r & Hr & ->) & _).
  destruct (forced_bits bits r Hbits Hr) as (Hrange & _ & Hlow).
  rewrite Z.bit0_odd in Hlow. now repeat split.
Qed.

Lemma distinct_q_shape (fuel : nat) (half p : Z) :
  forall q t q' t',
    has_bits half q ->
    distinct_q fuel half p q t = Ok (q', t') -> has_bits half q'.
Proof.
  induction fuel as [ | fuel IH ]; intros q t q' t' Hq; cbn [distinct_q];
    destruct (Z.eqb_spec p q) as [ | Hne ];
    try discriminate;
    try (intros H; apply ret_Ok in H as [-> _]; assumption).
  intros H. apply bind_Ok in H as (q1 & t1 & Hq1 & H).
  apply generate_prime_shape in Hq1 as [_ Hq1].
  eapply IH; eassumption.
Qed.

Lemma generate_primes_shape (fuel : nat) (bits : Z) (t : tape) (p q : Z) (t' : tape) :
  generate_primes fuel bits t = Ok ((p, q), t') ->
  1 <= bits / 2 /\ has_bits (bits / 2) p /\ has_bits (bits / 2) q.
Proof.
  unfold generate_primes. intros H.
  apply bind_Ok in H as (p1 & t1 & Hp & H).
  apply bind_Ok in H as (q1 & t2 & Hq1 & H).
  apply bind_Ok in H as (q2 & t3 & Hq2 & H).
  apply ret_Ok in H as [[= -> ->] _].
  apply generate_prime_shape in Hp as [Hhalf Hp].
  apply generate_prime_shape in Hq1 as [_ Hq1].
  repeat split; try assumption; try apply Hp;
    apply (distinct_q_shape _ _ _ _ _ _ _ Hq1 Hq2).
Qed.

Lemma product_bits (h p q : Z) :
  1 <= h -> 2 ^ (h - 1) <= p < 2 ^ h -> 2 ^ (h - 1) <= q < 2 ^ h ->
  2 ^ (2 * h - 2) <= p * q < 2 ^ (2 * h).
Proof.
  intros Hh Hp Hq.
  assert (Hlow : 0 < 2 ^ (h - 1)) by (apply Z.pow_pos_nonneg; lia).
  replace (2 * h - 2) with ((h - 1) + (h - 1)) by lia.
  replace (2 * h) with (h + h) by lia.
  rewrite !Z.pow_add_r by lia. nia.
Qed.

(** X10: Every keypair that [generate_keypair(bits)] returns has one modulus
    [n = p * q] in both keys, for two distinct odd numbers [p] and [q] of
    exactly [bits // 2] bits each; so [n] has [2 * (bits // 2)] bits or one
    less, and the private exponent lies strictly between 0 and
    [(p - 1) * (q - 1)]. *)
Theorem keypair_shape (fuel : nat) (bits : Z) (t : tape)
        (pk : public_key) (sk : private_key) :
  value (generate_keypair fuel bits t) = Ok (pk, sk) ->
  exists p q,
    fst pk = p * q /\ fst sk = p * q /\ p <> q /\
    has_bits (bits / 2) p /\ has_bits (bits / 2) q /\
    2 ^ (2 * (bits / 2) - 2) <= fst pk < 2 ^ (2 * (bits / 2)) /\
    0 < snd sk < (p - 1) * (q - 1).
Proof.
  intros H.
  apply generate_keypair_Ok in H as (p & q & t1 & t' & Hpq & Hkeys).
  pose proof (generate_primes_Ok _ _ _ _ _ _ Hpq) as Hne.
  apply generate_primes_shape in Hpq as (Hhalf & Hp & Hq).
  apply keys_of_primes_Ok in Hkeys
    as (e & d & -> & -> & He & Hg & _ & Hd & Hinv).
  exists p, q. cbn [fst snd].
  repeat split; try assumption; try apply Hp; try apply Hq; try lia.
  - apply product_bits; [ assumption | apply Hp | apply Hq ].
  - apply product_bits; [ assumption | apply Hp | apply Hq ].
  - destruct (Z.eq_dec d 0) as [-> | ]; [ | lia ].
    rewrite Z.mul_0_r, Z.mod_0_l in Hinv by lia. discriminate.
Qed.

Lemma keypair_shape_witness :
  value (generate_keypair 50 24 sample_tape) =
    Ok ((7635163, 285099), (7635163, 5133499)) /\
  exists p q,
    fst (7635163, 285099) = p * q /\ fst (7635163, 5133499) = p * q /\ p <> q /\
    has_bits (24 / 2) p /\ has_bits (24 / 2) q /\
    2 ^ (2 * (24 / 2) - 2) <= fst (7635163, 285099) < 2 ^ (2 * (24 / 2)) /\
    0 < snd (7635163, 5133499) < (p - 1) * (q - 1).
Proof.
  split; [ vm_compute; reflexivity | ].
  apply (keypair_shape 50 24 sample_tape (7635163, 285099) (7635163, 5133499)).
  vm_compute; reflexivity.
Defined.

(** X11: A modulus of 24 bits or more, as every key size the page offers gives,
    is above every code point: [encrypt] under such a generated key accepts
    every string and returns one value of [[0, n)] per symbol. *)
Theorem large_keys_accept_every_string (fuel : nat) (bits : Z) (t : tape)
        (pk : public_key) (sk : private_key) (message : Py.str) :
  value (generate_keypair fuel bits t) = Ok (pk, sk) ->
  24 <= bits ->
  Py.wf_str message ->
  Py.max_code < fst pk /\
  exists ciphertext,
    encrypt pk message = Ok ciphertext /\
    length ciphertext = length message /\
    Forall (fun v => 0 <= v < fst pk) ciphertext.
Proof.
  intros H Hbits Hwf.
  apply generate_keypair_Ok in H as (p & q & t1 & t' & Hpq & Hkeys).
  apply generate_primes_shape in Hpq as (Hhalf & [Hp _] & [Hq _]).
  apply keys_of_primes_Ok in Hkeys
    as (e & d & -> & -> & He & _).
  cbn [fst].
  pose proof (product_bits _ _ _ Hhalf Hp Hq) as Hn.
  assert (Hbig : Py.max_code < p * q).
  { assert (12 <= bits / 2) by (apply Z.div_le_lower_bound; lia).
    assert (2 ^ 22 <= 2 ^ (2 * (bits / 2) - 2)) by (apply Z.pow_le_mono_r; lia).
    unfold Py.max_code. change (2 ^ 22) with 4194304 in *. lia. }
  split; [ assumption | ].
  exists (map (fun c => Py.ord c ^ e mod (p * q)) message).
  cbn [encrypt]. repeat split.
  - rewrite encrypt_loop_spec; [ reflexivity | lia | ].
    unfold Py.wf_str in Hwf. rewrite Forall_forall in *. intros c Hc.
    specialize (Hwf c Hc). unfold Py.wf_symbol, Py.ord in *. lia.
  - apply length_map.
  - apply Forall_forall. intros v Hv. apply in_map_iff in Hv as (c & <- & _).
    apply Z.mod_pos_bound. unfold Py.max_code in Hbig. lia.
Qed.

Lemma large_keys_accept_every_string_witness :
  (value (generate_keypair 50 24 sample_tape) =
     Ok ((7635163, 285099), (7635163, 5133499)) /\
   24 <= 24 /\ Py.wf_str [Py.Sym 1114111; Py.Sym 65]) /\
  Py.max_code < fst (7635163, 285099) /\
  exists ciphertext,
    encrypt (7635163, 285099) [Py.Sym 1114111; Py.Sym 65] = Ok ciphertext /\
    length ciphertext = length [Py.Sym 1114111; Py.Sym 65] /\
    Forall (fun v => 0 <= v < fst (7635163, 285099)) ciphertext.
Proof.
  assert (Hkeys : value (generate_keypair 50 24 sample_tape) =
                    Ok ((7635163, 285099), (7635163, 5133499)))
    by (vm_compute; reflexivity).
  assert (Hwf : Py.wf_str [Py.Sym 1114111; Py.Sym 65])
    by (repeat constructor; cbn; unfold Py.max_code; lia).
  split; [ repeat split; try assumption; lia | ].
  exact (large_keys_accept_every_string 50 24 sample_tape _ _ _ Hkeys ltac:(lia) Hwf).
Defined.

(** ** More on encrypt and decrypt *)

Lemma encrypt_loop_complete_or_empty (n e : Z) :
  forall plaintext acc out,
    Py.wf_str plaintext ->
    encrypt_loop n e plaintext acc = Ok out ->
    out = [] \/
    exists values,
      out = acc ++ values /\ length values = length plaintext /\
      Forall (fun c => Py.ord c < n) plaintext /\
      Forall (fun v => 0 <= v < n) values.
Proof.
  induction plaintext as [ | c rest IH ]; intros acc out Hwf.
  - cbn. intros [= <-]. right. exists []. rewrite app_nil_r. now repeat split.
  - inversion Hwf as [ | ? ? Hc Hwf' ]; subst.
    cbn [encrypt_loop].
    destruct (Z.leb_spec n (Py.ord c)) as [ | Hlt ]; [ intros [= <-]; now left | ].
    destruct (Py.pow (Py.ord c) e n) as [ v | | ] eqn:Epow; try discriminate.
    cbn [rbind]. intros H.
    apply IH in H as [ -> | (values & -> & Hlen & Hfit & Hrange) ];
      [ now left | right | assumption ].
    exists (v :: values). rewrite <- app_assoc. cbn [app length].
    repeat split; try (constructor; assumption); try lia.
    constructor; [ | assumption ].
    apply pow_range in Epow; [ assumption | ].
    unfold Py.wf_symbol, Py.ord in *. lia.
Qed.

(** X12: Whatever the exponent, a non-empty list returned by [encrypt] is a
    complete ciphertext: one value of [[0, n)] per symbol of the message,
    all of whose codes are below [n]. *)
Theorem encrypt_complete_or_empty (n e : Z) (message : Py.str) (out : list Z) :
  Py.wf_str message ->
  encrypt (n, e) message = Ok out ->
  out = [] \/
  (length out = length message /\
   Forall (fun c => Py.ord c < n) message /\
   Forall (fun v => 0 <= v < n) out).
Proof.
  intros Hwf H. cbn [encrypt] in H.
  apply encrypt_loop_complete_or_empty in H as [ -> | (values & -> & H) ];
    [ now left | right | assumption ].
  exact H.
Qed.

Lemma encrypt_complete_or_empty_witness :
  (Py.wf_str [Py.Sym 72; Py.Sym 105] /\
   encrypt (3233, 17) [Py.Sym 72; Py.Sym 105] = Ok [3000; 3179]) /\
  ([3000; 3179] = [] \/
   (length [3000; 3179] = length [Py.Sym 72; Py.Sym 105] /\
    Forall (fun c => Py.ord c < 3233) [Py.Sym 72; Py.Sym 105] /\
    Forall (fun v => 0 <= v < 3233) [3000; 3179])).
Proof.
  assert (Hwf : Py.wf_str [Py.Sym 72; Py.Sym 105])
    by (repeat constructor; cbn; unfold Py.max_code; lia).
  assert (E : encrypt (3233, 17) [Py.Sym 72; Py.Sym 105] = Ok [3000; 3179])
    by (vm_compute; reflexivity).
  split; [ now split | ].
  exact (encrypt_complete_or_empty 3233 17 _ _ Hwf E).
Defined.

(** X13: With a non-negative exponent and every code below [n], [encrypt] maps
    each symbol to [code ^ e mod n] on its own: equal symbols give equal
    values, and the encryption of a concatenation is the concatenation of
    the encryptions. *)
Theorem encrypt_symbol_by_symbol (n e : Z) (m1 m2 : Py.str) :
  0 <= e ->
  Py.wf_str (m1 ++ m2) ->
  Forall (fun c => Py.ord c < n) (m1 ++ m2) ->
  encrypt (n, e) (m1 ++ m2) = Ok (map (fun c => Py.ord c ^ e mod n) (m1 ++ m2)) /\
  exists c1 c2,
    encrypt (n, e) m1 = Ok c1 /\ encrypt (n, e) m2 = Ok c2 /\
    encrypt (n, e) (m1 ++ m2) = Ok (c1 ++ c2).
Proof.
  intros He Hwf Hfit.
  assert (Hall : Forall (fun c => 0 <= Py.ord c < n) (m1 ++ m2)).
  { unfold Py.wf_str in Hwf. rewrite Forall_forall in *. intros c Hc.
    specialize (Hwf c Hc). specialize (Hfit c Hc).
    unfold Py.wf_symbol, Py.ord in *. lia. }
  pose proof Hall as Hboth. apply Forall_app in Hboth as [H1 H2].
  cbn [encrypt]. rewrite !encrypt_loop_spec by assumption. cbn [app].
  split; [ reflexivity | ].
  eexists _, _. repeat split. now rewrite map_app.
Qed.

Lemma encrypt_symbol_by_symbol_witness :
  (0 <= 17 /\ Py.wf_str ([Py.Sym 72] ++ [Py.Sym 72]) /\
   Forall (fun c => Py.ord c < 3233) ([Py.Sym 72] ++ [Py.Sym 72])) /\
  encrypt (3233, 17) ([Py.Sym 72] ++ [Py.Sym 72]) =
    Ok (map (fun c => Py.ord c ^ 17 mod 3233) ([Py.Sym 72] ++ [Py.Sym 72])) /\
  exists c1 c2,
    encrypt (3233, 17) [Py.Sym 72] = Ok c1 /\ encrypt (3233, 17) [Py.Sym 72] = Ok c2 /\
    encrypt (3233, 17) ([Py.Sym 72] ++ [Py.Sym 72]) = Ok (c1 ++ c2).
Proof.
  assert (Hwf : Py.wf_str ([Py.Sym 72] ++ [Py.Sym 72]))
    by (repeat constructor; cbn; unfold Py.max_code; lia).
  assert (Hfit : Forall (fun c => Py.ord c < 3233) ([Py.Sym 72] ++ [Py.Sym 72]))
    by (repeat constructor; cbn; lia).
  split; [ repeat split; try assumption; lia | ].
  exact (encrypt_symbol_by_symbol 3233 17 [Py.Sym 72] [Py.Sym 72] ltac:(lia) Hwf Hfit).
Defined.

Lemma decrypt_loop_acc (n d : Z) :
  forall ciphertext acc,
    decrypt_loop n d ciphertext acc =
    rbind (decrypt_loop n d ciphertext []) (fun s => Ok (acc ++ s)).
Proof.
  induction ciphertext as [ | v rest IH ]; intros acc.
  - cbn. now rewrite app_nil_r.
  - cbn [decrypt_loop].
    destruct (Py.pow v d n) as [ i | | ]; try reflexivity. cbn [rbind].
    destruct (Py.chr i) as [ c | | ]; try reflexivity. cbn [rbind app].
    rewrite (IH (acc ++ [c])), (IH [c]).
    destruct (decrypt_loop n d rest []); try reflexivity.
    cbn [rbind]. now rewrite <- app_assoc.
Qed.

(** X14: For every key, [decrypt] works value by value: on a concatenation it
    gives the concatenation of the two decryptions, and fails as the first
    failing part does. *)
Theorem decrypt_app (sk : private_key) (c1 c2 : list Z) :
  decrypt sk (c1 ++ c2) =
  rbind (decrypt sk c1) (fun s1 =>
  rbind (decrypt sk c2) (fun s2 => Ok (s1 ++ s2))).
Proof.
  destruct sk as [n d]. cbn [decrypt].
  induction c1 as [ | v rest IH ].
  - cbn. destruct (decrypt_loop n d c2 []); reflexivity.
  - cbn [app decrypt_loop].
    destruct (Py.pow v d n) as [ i | | ]; try reflexivity. cbn [rbind].
    destruct (Py.chr i) as [ c | | ]; try reflexivity. cbn [rbind app].
    rewrite (decrypt_loop_acc n d (rest ++ c2) [c]), IH.
    rewrite (decrypt_loop_acc n d rest [c]).
    destruct (decrypt_loop n d rest []); try reflexivity. cbn [rbind].
    destruct (decrypt_loop n d c2 []); reflexivity.
Qed.

Lemma decrypt_loop_wf (n d : Z) :
  forall ciphertext acc out,
    Py.wf_str acc ->
    decrypt_loop n d ciphertext acc = Ok out ->
    Py.wf_str out /\ length out = (length acc + length ciphertext)%nat.
Proof.
  induction ciphertext as [ | v rest IH ]; intros acc out Hacc.
  - cbn. intros [= <-]. split; [ assumption | lia ].
  - cbn [decrypt_loop].
    destruct (Py.pow v d n) as [ i | | ]; try discriminate. cbn [rbind].
    unfold Py.chr.
    destruct (Z.leb_spec 0 i) as [Hi0 | ]; [ | discriminate ].
    destruct (Z.ltb_spec i Py.max_code) as [Hi1 | ]; [ | discriminate ].
    cbn [andb rbind]. intros H. apply IH in H.
    + rewrite length_app in H. cbn [length] in *. split; [ apply H | lia ].
    + apply Forall_app. split; [ assumption | ].
      repeat constructor; cbn; lia.
Qed.

(** X15: Whatever the key, what [decrypt] returns is a string: one symbol per
    ciphertext value, each a code point below 0x110000. *)
Theorem decrypt_returns_string (sk : private_key) (ciphertext : list Z) (out : Py.str) :
  decrypt sk ciphertext = Ok out ->
  Py.wf_str out /\ length out = length ciphertext.
Proof.
  destruct sk as [n d]. cbn [decrypt]. intros H.
  apply decrypt_loop_wf in H; [ exact H | constructor ].
Qed.

Lemma decrypt_returns_string_witness :
  decrypt (3233, 2753) [2790; 7] = Ok [Py.Sym 65; Py.Sym 2667] /\
  Py.wf_str [Py.Sym 65; Py.Sym 2667] /\
  length [Py.Sym 65; Py.Sym 2667] = length [2790; 7].
Proof.
  assert (E : decrypt (3233, 2753) [2790; 7] = Ok [Py.Sym 65; Py.Sym 2667])
    by (vm_compute; reflexivity).
  split; [ exact E | ].
  exact (decrypt_returns_string (3233, 2753) [2790; 7] _ E).
Defined.

(** X16: The other round trip: under a keypair that [generate_keypair] returns
    from two primes, a ciphertext of values in [[0, n)] that [decrypt]
    accepts is given back by [encrypt] on the decrypted string. *)
Theorem decrypt_then_encrypt (fuel : nat) (bits : Z) (t : tape)
        (pk : public_key) (sk : private_key)
        (ciphertext : list Z) (message : Py.str) :
  value (generate_keypair fuel bits t) = Ok (pk, sk) ->
  (forall p q t1,
      generate_primes fuel bits t = Ok ((p, q), t1) -> Z.prime p /\ Z.prime q) ->
  Forall (fun v => 0 <= v < fst sk) ciphertext ->
  decrypt sk ciphertext = Ok message ->
  encrypt pk message = Ok ciphertext.
Proof.
  intros Hkeys Hprimes Hrange Hdec.
  apply generate_keypair_Ok in Hkeys as (p & q & t1 & t' & Hpq & Hkeys).
  destruct (Hprimes p q t1 Hpq) as [Hp Hq].
  pose proof (generate_primes_Ok _ _ _ _ _ _ Hpq) as Hne.
  apply keys_of_primes_Ok in Hkeys
    as (e & d & -> & -> & He & Hg & _ & Hd & Hinv).
  cbn [fst] in Hrange.
  pose proof (Z.prime_ge_2 p Hp) as Hp2.
  pose proof (Z.prime_ge_2 q Hq) as Hq2.
  assert (Hn : 0 < p * q) by nia.
  cbn [decrypt] in Hdec. rewrite decrypt_loop_spec in Hdec by lia.
  destruct (forallb _ ciphertext); [ | discriminate ].
  injection Hdec as <-. cbn [app encrypt].
  rewrite encrypt_loop_spec; [ | lia | ].
  - cbn [app]. f_equal. rewrite map_map. cbn [Py.ord Py.code].
    rewrite <- (map_id ciphertext) at 2.
    apply map_ext_in. intros v Hv.
    rewrite Forall_forall in Hrange.
    apply rsa_identity; try assumption; try lia.
    + now rewrite Z.mul_comm.
    + now apply Hrange.
  - apply Forall_forall. intros c Hc. apply in_map_iff in Hc as (v & <- & _).
    cbn [Py.ord Py.code]. apply Z.mod_pos_bound, Hn.
Qed.

Lemma decrypt_then_encrypt_witness :
  (value (generate_keypair 50 16 sample_tape) =
     Ok ((32231, 15077), (32231, 24173)) /\
   (forall p q t1,
       generate_primes 50 16 sample_tape = Ok ((p, q), t1) ->
       Z.prime p /\ Z.prime q) /\
   Forall (fun v => 0 <= v < fst (32231, 24173)) [2; 3] /\
   decrypt (32231, 24173) [2; 3] = Ok [Py.Sym 1820; Py.Sym 12109]) /\
  encrypt (32231, 15077) [Py.Sym 1820; Py.Sym 12109] = Ok [2; 3].
Proof.
  assert (Hkeys : value (generate_keypair 50 16 sample_tape) =
                    Ok ((32231, 15077), (32231, 24173)))
    by (vm_compute; reflexivity).
  assert (Hprimes : forall p q t1,
             generate_primes 50 16 sample_tape = Ok ((p, q), t1) ->
             Z.prime p /\ Z.prime q).
  { intros p q t1 H.
    assert (E : value (generate_primes 50 16 sample_tape) = Ok (p, q))
      by now rewrite H.
    vm_compute in E. injection E as <- <-.
    split; apply trial_division_prime; try lia; vm_compute; reflexivity. }
  assert (Hrange : Forall (fun v => 0 <= v < fst (32231, 24173)) [2; 3])
    by (repeat constructor; cbn; lia).
  assert (Hdec : decrypt (32231, 24173) [2; 3] = Ok [Py.Sym 1820; Py.Sym 12109])
    by (vm_compute; reflexivity).
  split; [ exact (conj Hkeys (conj Hprimes (conj Hrange Hdec))) | ].
  exact (decrypt_then_encrypt 50 16 sample_tape _ _ _ _ Hkeys Hprimes Hrange Hdec).
Defined.

(** ** The pages of the application *)

Lemma str_eqb_eq (a b : Py.str) : str_eqb a b = true <-> a = b.
Proof.
  revert b. induction a as [ | [x] a IH ]; intros [ | [y] b ]; cbn [str_eqb Py.code];
    try (split; [ discriminate | discriminate ]); [ now split | ].
  rewrite andb_true_iff, Z.eqb_eq, IH. split.
  - now intros [-> ->].
  - now intros [= -> ->].
Qed.

Ltac st_simpl :=
  cbn [St.set_keys St.set_original_msg St.set_encrypted_msg St.set_decrypted_msg
       St.public_key St.private_key St.encrypted_msg St.original_msg
       St.decrypted_msg fst snd].

Lemma str_eqb_refl (a : Py.str) : str_eqb a a = true.
Proof. now apply str_eqb_eq. Qed.

Lemma str_eqb_neq (a b : Py.str) : a <> b -> str_eqb a b = false.
Proof.
  intros Hne. destruct (str_eqb a b) eqn:E; [ | reflexivity ].
  apply str_eqb_eq in E. contradiction.
Qed.

(** Encryption followed by decryption under generated keys, with the
    ciphertext made explicit. *)
Lemma generated_keys_round_trip (fuel : nat) (bits : Z) (t : tape)
      (pk : public_key) (sk : private_key) (message : Py.str) :
  value (generate_keypair fuel bits t) = Ok (pk, sk) ->
  (forall p q t1,
      generate_primes fuel bits t = Ok ((p, q), t1) -> Z.prime p /\ Z.prime q) ->
  Py.wf_str message ->
  Forall (fun c => Py.ord c < fst pk) message ->
  exists ciphertext,
    length ciphertext = length message /\
    encrypt pk message = Ok ciphertext /\ decrypt sk ciphertext = Ok message.
Proof.
  intros Hkeys Hprimes Hwf Hlt.
  apply generate_keypair_Ok in Hkeys as (p & q & t1 & t' & Hpq & Hkeys).
  destruct (Hprimes p q t1 Hpq) as [Hp Hq].
  pose proof (generate_primes_Ok _ _ _ _ _ _ Hpq) as Hne.
  apply keys_of_primes_Ok in Hkeys
    as (e & d & -> & -> & He & Hg & _ & Hd & Hinv).
  cbn [fst] in Hlt.
  pose proof (Z.prime_ge_2 p Hp) as Hp2.
  pose proof (Z.prime_ge_2 q Hq) as Hq2.
  exists (map (fun c => Py.ord c ^ e mod (p * q)) message).
  cbn [encrypt decrypt]. split; [ apply length_map | split ].
  - rewrite encrypt_loop_spec; [ reflexivity | lia | ].
    unfold Py.wf_str in Hwf. rewrite Forall_forall in *. intros c Hc.
    specialize (Hwf c Hc). specialize (Hlt c Hc).
    unfold Py.wf_symbol, Py.ord in *. lia.
  - rewrite decrypt_encrypt_loop; try assumption; try reflexivity; try nia.
    intros m Hm. apply rsa_identity; try assumption; lia.
Qed.

(** X17: Generate, encrypt, decrypt: from any session, when the two primes drawn
    are prime and the message is not empty and fits below [n], the three
    runs end with the verification shown as successful and the message in
    [decrypted_msg]. *)
Theorem pages_happy_path (s0 : St.session_state) (key_bits : Z) (fuel : nat) (t : tape)
        (pk sk : St.key) (message : Py.str) :
  value (generate_keypair fuel key_bits t) = Ok (pk, sk) ->
  (forall p q t1,
      generate_primes fuel key_bits t = Ok ((p, q), t1) -> Z.prime p /\ Z.prime q) ->
  message <> [] ->
  Py.wf_str message ->
  Forall (fun c => Py.ord c < fst pk) message ->
  let (s1, shown1) := run s0 (KeyGeneration true key_bits fuel t) in
  let (s2, shown2) := run s1 (EncryptionOf message true) in
  let (s3, shown3) := run s2 (Decryption true) in
  shown1 = Ok (KeysShown pk sk) /\
  shown2 = Ok (Encryption (EncryptedShown (St.encrypted_msg s2))) /\
  shown3 = Ok (Verified message) /\
  St.original_msg s3 = message /\ St.decrypted_msg s3 = message.
Proof.
  intros Hkeys Hprimes Hne Hwf Hfit.
  destruct (generated_keys_round_trip _ _ _ _ _ _ Hkeys Hprimes Hwf Hfit)
    as (c & Hlen & Henc & Hdec).
  cbn [run]. unfold key_generation_page. rewrite Hkeys.
  unfold encryption_page. st_simpl.
  unfold encrypt_button. rewrite Henc. cbn [rbind].
  destruct c as [ | v c ].
  { destruct message; [ contradiction | discriminate ]. }
  unfold decryption_page.
  st_simpl.
  rewrite Hdec.
  st_simpl.
  rewrite str_eqb_refl. now repeat split.
Qed.

Lemma pages_happy_path_witness :
  (value (generate_keypair 50 16 sample_tape) =
     Ok ((32231, 15077), (32231, 24173)) /\
   (forall p q t1,
       generate_primes 50 16 sample_tape = Ok ((p, q), t1) ->
       Z.prime p /\ Z.prime q) /\
   [Py.Sym 72; Py.Sym 105] <> [] /\
   Py.wf_str [Py.Sym 72; Py.Sym 105] /\
   Forall (fun c => Py.ord c < fst (32231, 15077)) [Py.Sym 72; Py.Sym 105]) /\
  let (s1, shown1) := run St.initial (KeyGeneration true 16 50 sample_tape) in
  let (s2, shown2) := run s1 (EncryptionOf [Py.Sym 72; Py.Sym 105] true) in
  let (s3, shown3) := run s2 (Decryption true) in
  shown1 = Ok (KeysShown (32231, 15077) (32231, 24173)) /\
  shown2 = Ok (Encryption (EncryptedShown (St.encrypted_msg s2))) /\
  shown3 = Ok (Verified [Py.Sym 72; Py.Sym 105]) /\
  St.original_msg s3 = [Py.Sym 72; Py.Sym 105] /\
  St.decrypted_msg s3 = [Py.Sym 72; Py.Sym 105].
Proof.
  assert (Hkeys : value (generate_keypair 50 16 sample_tape) =
                    Ok ((32231, 15077), (32231, 24173)))
    by (vm_compute; reflexivity).
  assert (Hprimes : forall p q t1,
             generate_primes 50 16 sample_tape = Ok ((p, q), t1) ->
             Z.prime p /\ Z.prime q).
  { intros p q t1 H.
    assert (E : value (generate_primes 50 16 sample_tape) = Ok (p, q))
      by now rewrite H.
    vm_compute in E. injection E as <- <-.
    split; apply trial_division_prime; try lia; vm_compute; reflexivity. }
  assert (Hne : [Py.Sym 72; Py.Sym 105] <> []) by discriminate.
  assert (Hwf : Py.wf_str [Py.Sym 72; Py.Sym 105])
    by (repeat constructor; cbn; unfold Py.max_code; lia).
  assert (Hlt : Forall (fun c => Py.ord c < fst (32231, 15077))
                       [Py.Sym 72; Py.Sym 105])
    by (repeat constructor; cbn; lia).
  split; [ exact (conj Hkeys (conj Hprimes (conj Hne (conj Hwf Hlt)))) | ].
  exact (pages_happy_path St.initial 16 50 sample_tape (32231, 15077) (32231, 24173)
           [Py.Sym 72; Py.Sym 105] Hkeys Hprimes Hne Hwf Hlt).
Defined.

(** X18: The Encryption page stores the text of the text area in [original_msg]
    on every run, pressed or not. After a look at that page with another
    text, the Decryption page decrypts the ciphertext of the session as
    before and reports a mismatch. *)
Theorem edited_message_mismatch (s : St.session_state) (pk sk : St.key)
        (message edited : Py.str) :
  St.public_key s = Some pk ->
  St.private_key s = Some sk ->
  St.encrypted_msg s <> [] ->
  decrypt sk (St.encrypted_msg s) = Ok message ->
  edited <> message ->
  let (s1, shown1) := run s (EncryptionOf edited false) in
  let (s2, shown2) := run s1 (Decryption true) in
  shown1 = Ok Idle /\
  St.encrypted_msg s1 = St.encrypted_msg s /\
  shown2 = Ok (Mismatch edited message).
Proof.
  intros Hpk Hsk Hc Hdec Hne.
  cbn [run]. unfold encryption_page. rewrite Hpk.
  unfold decryption_page.
  st_simpl.
  rewrite Hsk.
  destruct (St.encrypted_msg s) as [ | v c ] eqn:E; [ contradiction | ].
  rewrite Hdec.
  st_simpl.
  rewrite str_eqb_neq by assumption. now repeat split.
Qed.

Lemma edited_message_mismatch_witness :
  (St.public_key sample_session = Some (3233, 17) /\
   St.private_key sample_session = Some (3233, 2753) /\
   St.encrypted_msg sample_session <> [] /\
   decrypt (3233, 2753) (St.encrypted_msg sample_session) = Ok [Py.Sym 65] /\
   [Py.Sym 66] <> [Py.Sym 65]) /\
  let (s1, shown1) := run sample_session (EncryptionOf [Py.Sym 66] false) in
  let (s2, shown2) := run s1 (Decryption true) in
  shown1 = Ok Idle /\
  St.encrypted_msg s1 = St.encrypted_msg sample_session /\
  shown2 = Ok (Mismatch [Py.Sym 66] [Py.Sym 65]).
Proof.
  assert (Hc : St.encrypted_msg sample_session <> []) by discriminate.
  assert (Hdec : decrypt (3233, 2753) (St.encrypted_msg sample_session) = Ok [Py.Sym 65])
    by (vm_compute; reflexivity).
  assert (Hne : [Py.Sym 66] <> [Py.Sym 65]) by discriminate.
  split; [ exact (conj eq_refl (conj eq_refl (conj Hc (conj Hdec Hne)))) | ].
  exact (edited_message_mismatch sample_session (3233, 17) (3233, 2753)
           [Py.Sym 65] [Py.Sym 66] eq_refl eq_refl Hc Hdec Hne).
Defined.

(** X19: Pressing Encrypt on a text that is empty, or holds a symbol that does
    not fit below [n], shows the failure and leaves the ciphertext of the
    session as it was, while [original_msg] already holds the new text. *)
Theorem failed_encryption_keeps_ciphertext (s : St.session_state) (n e : Z)
        (message : Py.str) :
  St.public_key s = Some (n, e) ->
  0 <= e ->
  Py.wf_str message ->
  message = [] \/ Exists (too_large n) message ->
  run s (EncryptionOf message true) =
    (St.set_original_msg message s, Ok (Encryption EncryptionFailedShown)).
Proof.
  intros Hpk He Hwf Hfail.
  cbn [run]. unfold encryption_page. rewrite Hpk.
  st_simpl. rewrite Hpk.
  assert (E : encrypt (n, e) message = Ok []).
  { destruct Hfail as [-> | Hex ]; [ reflexivity | ].
    now apply encrypt_loop_too_large_nonneg. }
  unfold encrypt_button. rewrite E. reflexivity.
Qed.

Lemma failed_encryption_keeps_ciphertext_witness :
  (St.public_key sample_session = Some (3233, 17) /\ 0 <= 17 /\
   Py.wf_str [Py.Sym 4000] /\
   ([Py.Sym 4000] = [] \/ Exists (too_large 3233) [Py.Sym 4000])) /\
  run sample_session (EncryptionOf [Py.Sym 4000] true) =
    (St.set_original_msg [Py.Sym 4000] sample_session,
     Ok (Encryption EncryptionFailedShown)).
Proof.
  assert (Hwf : Py.wf_str [Py.Sym 4000])
    by (repeat constructor; cbn; unfold Py.max_code; lia).
  assert (Hex : [Py.Sym 4000] = [] \/ Exists (too_large 3233) [Py.Sym 4000]).
  { right. apply Exists_cons_hd. unfold too_large. cbn. lia. }
  assert (He : 0 <= 17) by lia.
  split; [ exact (conj eq_refl (conj He (conj Hwf Hex))) | ].
  exact (failed_encryption_keeps_ciphertext sample_session 3233 17 [Py.Sym 4000]
           eq_refl He Hwf Hex).
Defined.

(** X20: The warnings placed under the buttons are never shown: each is
    guarded by the test that the enclosing branch has just passed. *)
Theorem inner_warnings_unreachable (s : St.session_state) (ev : event) :
  snd (run s ev) <> Ok GenerateKeysFirstUnderButton /\
  snd (run s ev) <> Ok NoMessageUnderButton.
Proof.
  destruct ev as [ clicked key_bits fuel t | message clicked | clicked ]; cbn [run].
  - unfold key_generation_page.
    destruct clicked; [ | split; discriminate ].
    destruct (value (generate_keypair fuel key_bits t)) as [ [pk sk] | | ];
      split; discriminate.
  - unfold encryption_page.
    destruct (St.public_key s) as [ pk | ] eqn:E; [ | split; discriminate ].
    destruct clicked; [ | split; discriminate ].
    st_simpl. rewrite E.
    destruct (encrypt_button pk message) as [ [ c | ] | | ]; split; discriminate.
  - unfold decryption_page.
    destruct (St.private_key s) as [ sk | ];
      destruct (St.encrypted_msg s) as [ | v c ];
      try (split; discriminate).
    destruct clicked; [ | split; discriminate ].
    destruct (decrypt sk (v :: c)) as [ m | | ]; cbn [snd];
      try (split; discriminate).
    destruct (str_eqb _ _); split; discriminate.
Qed.

(** ** What every reachable session satisfies *)

Lemma session_ok_initial : session_ok St.initial.
Proof.
  unfold session_ok, St.initial. st_simpl.
  repeat split; try congruence. constructor.
Qed.

Lemma encrypt_button_nonempty (pk : public_key) (message : Py.str) (c : list Z) :
  encrypt_button pk message = Ok (EncryptedShown c) -> c <> [].
Proof.
  unfold encrypt_button. destruct (encrypt pk message) as [ [ | v l ] | | ];
    cbn [rbind]; try discriminate.
  intros [= <-]. discriminate.
Qed.

Lemma session_ok_run (s : St.session_state) (ev : event) :
  session_ok s -> session_ok (fst (run s ev)).
Proof.
  intros Hok. pose proof Hok as (Hiff & Hmod & Henc & Hdec & Hwf).
  destruct ev as [ clicked key_bits fuel t | message clicked | clicked ]; cbn [run].
  - unfold key_generation_page.
    destruct clicked; [ | exact Hok ].
    destruct (value (generate_keypair fuel key_bits t)) as [ [pk sk] | | ] eqn:E;
      [ | exact Hok | exact Hok ].
    apply generate_keypair_Ok in E as (p & q & t1 & t' & _ & Hkeys).
    apply keys_of_primes_Ok in Hkeys as (e & d & -> & -> & _).
    unfold session_ok. st_simpl.
    split; [ split; discriminate | ].
    split; [ intros pk sk [= <-] [= <-]; reflexivity | ].
    split; [ discriminate | ].
    split; assumption.
  - unfold encryption_page.
    destruct (St.public_key s) as [ pk | ] eqn:E; [ | exact Hok ].
    assert (Hset : session_ok (St.set_original_msg message s)).
    { unfold session_ok. st_simpl. rewrite ?E.
      rewrite ?E in Hiff, Hmod, Henc. repeat split; try assumption; apply Hiff. }
    destruct clicked; [ | exact Hset ].
    st_simpl. rewrite ?E.
    destruct (encrypt_button pk message) as [ [ c | ] | | ] eqn:Eb; try exact Hset.
    apply encrypt_button_nonempty in Eb.
    unfold session_ok. st_simpl. rewrite ?E. rewrite ?E in Hiff, Hmod.
    split; [ exact Hiff | ].
    split; [ exact Hmod | ].
    split; [ discriminate | ].
    split; [ intros _; exact Eb | exact Hwf ].
  - unfold decryption_page.
    destruct (St.private_key s) as [ sk | ] eqn:Esk;
      destruct (St.encrypted_msg s) as [ | v c ] eqn:Ec;
      try exact Hok.
    destruct clicked; [ | exact Hok ].
    destruct (decrypt sk (v :: c)) as [ m | | ] eqn:Ed; try exact Hok.
    unfold session_ok. st_simpl. rewrite ?Esk, ?Ec.
    rewrite ?Esk in Hiff, Hmod. rewrite ?Ec in Henc.
    split; [ exact Hiff | ].
    split; [ exact Hmod | ].
    split; [ exact Henc | ].
    split; [ discriminate | ].
    destruct sk as [n d]. cbn [decrypt] in Ed.
    apply decrypt_loop_wf in Ed; [ apply Ed | constructor ].
Qed.

(** X21: From a fresh session and through any sequence of runs, with any
    inputs: the two keys are present together and share their modulus, a
    stored ciphertext implies stored keys, a stored decryption implies a
    stored ciphertext, and [decrypted_msg] is a string. *)
Theorem session_invariant (events : list event) :
  session_ok (session_after events).
Proof.
  unfold session_after.
  assert (H : forall s, session_ok s ->
            session_ok (fold_left (fun s ev => fst (run s ev)) events s)).
  { induction events as [ | ev events IH ]; intros s Hs; cbn [fold_left].
    - exact Hs.
    - apply IH. now apply session_ok_run. }
  apply H, session_ok_initial.
Qed.
